(** * ISCalcCorrelated: ionization electrons and scintillation photons

    A shallow embedding of
    [larsim/IonizationScintillation/ISCalcCorrelated.cxx] (namespace
    [larg4]) and the properties its specification states.

    Number model.  The C++ [double] is idealised as a real number ([R] of
    the Standard Library), [exp] is the real exponential and
    [std::hypot] the Euclidean norm.  The operations that leave the reals
    are partial: a division whose divisor is zero and a logarithm of a
    non-positive number return [None] (IEEE arithmetic returns an
    infinity or a NaN there and goes on).  The rounding and the overflow
    of the double operations are outside the model.  The narrowing
    [float ds = edep.StepLength()] of line 63 is in it: [Binary32.to_float]
    rounds a real number to the nearest single precision number.  The
    particle code is a C++ [int], modelled as [Z]; every code the source
    names fits in 32 bits. *)

From Stdlib Require Import Reals ZArith Lra Lia Bool.

Local Open Scope R_scope.

(** ** Partial arithmetic *)

Module Numeric.

(** [x / y] on doubles, defined when the divisor is not zero.  [None]
    marks the division by zero itself; it stays [None] in what is
    computed from it, also where the code's infinity would be absorbed
    later (as in A / (1 + inf) = 0). *)
Definition div (x y : R) : option R :=
  if Req_dec_T y 0 then None else Some (x / y).

(** [log(x)] of <cmath>, defined on the positive numbers. *)
Definition log (x : R) : option R :=
  if Rlt_dec 0 x then Some (ln x) else None.

(** [std::hypot(x, y, z)]. *)
Definition hypot (x y z : R) : R := sqrt (x * x + y * y + z * z).

Definition ret {A : Type} (a : A) : option A := Some a.

Definition bind {A B : Type} (c : option A) (k : A -> option B) : option B :=
  match c with
  | Some a => k a
  | None => None
  end.

End Numeric.

Import Numeric.

(** ** Narrowing to single precision

    The conversion of a double to [float]: round to nearest, ties to
    even, with a 24-bit significand and gradual underflow below
    2^(-126).  The exponent is not bounded above: a value beyond the
    largest float (about 3.4e38), which the conversion turns into an
    infinity, is outside the model. *)

Module Binary32.

(** The integer nearest to [m], the even one of the two at a tie. *)
Definition rne (m : R) : Z :=
  let f := Int_part m in
  let d := m - IZR f in
  if Rlt_dec d (1 / 2) then f
  else if Rlt_dec (1 / 2) d then (f + 1)%Z
  else if Z.even f then f else (f + 1)%Z.

(** The exponent [e] with 2^e <= a < 2^(e+1), for positive [a]. *)
Definition ilog2 (a : R) : Z := Int_part (ln a / ln 2).

(** The spacing of the single precision numbers around [a]. *)
Definition ulp (a : R) : R := powerRZ 2 (Z.max (ilog2 a) (-126) - 23).

Definition to_float (x : R) : R :=
  if Req_dec_T x 0 then 0
  else
    let a := Rabs x in
    let r := IZR (rne (a / ulp a)) * ulp a in
    if Rlt_dec x 0 then - r else r.

End Binary32.

Import Binary32.

Declare Scope calc_scope.
Delimit Scope calc_scope with calc.
Notation "x <- c ;; k" := (bind c (fun x => k))
  (at level 61, c at next level, right associativity) : calc_scope.
Notation "x /? y" := (div x y) (at level 40, left associativity) : calc_scope.
Local Open Scope calc_scope.

(** ** The collaborators the calculator reads

    Their declarations are outside this file's source; each is a record of
    the accessors that [ISCalcCorrelated.cxx] calls. *)

(** [geo::Point_t] and [geo::Vector_t]: three coordinates. *)
Module geo.
Record Vector_t : Type := mkVector { X : R; Y : R; Z : R }.
Definition Point_t : Type := Vector_t.
End geo.

(** [sim::SimEnergyDeposit], through [Energy()], [StepLength()],
    [MidPoint()] and [PdgCode()].  The step length is a double. *)
Record SimEnergyDeposit : Type := mkSimEnergyDeposit {
  Energy : R;
  StepLength : R;
  MidPoint : geo.Point_t;
  PdgCode : Z
}.

(** [detinfo::DetectorPropertiesData]. *)
Record DetectorPropertiesData : Type := mkDetectorPropertiesData {
  Temperature : R;
  Density : R -> R;
  Efield : R
}.

(** [sim::LArG4Parameters]. *)
Record LArG4Parameters : Type := mkLArG4Parameters {
  RecombA : R;
  Recombk : R;
  ModBoxA : R;
  ModBoxB : R;
  UseModBoxRecomb : bool;
  UseModLarqlRecomb : bool;
  LarqlChi0A : R;
  LarqlChi0B : R;
  LarqlChi0C : R;
  LarqlChi0D : R;
  LarqlAlpha : R;
  LarqlBeta : R;
  GeVToElectrons : R
}.

(** [detinfo::LArProperties]. *)
Record LArProperties : Type := mkLArProperties {
  ScintPreScale : R;
  ScintByParticleType : bool;
  ScintYieldRatio : R;
  ProtonScintYieldRatio : R;
  MuonScintYieldRatio : R;
  PionScintYieldRatio : R;
  KaonScintYieldRatio : R;
  AlphaScintYieldRatio : R;
  ElectronScintYieldRatio : R
}.

(** [spacecharge::SpaceCharge]. *)
Record SpaceCharge : Type := mkSpaceCharge {
  EnableSimEfieldSCE : bool;
  GetEfieldOffsets : geo.Point_t -> geo.Vector_t
}.

(** ** The calculator *)

(** The data members of [ISCalcCorrelated]. *)
Record ISCalcCorrelated : Type := mkISCalcCorrelated {
  fSCE : SpaceCharge;
  fLArProp : LArProperties;
  fScintPreScale : R;
  fRecombA : R;
  fRecombk : R;
  fModBoxA : R;
  fModBoxB : R;
  fUseModBoxRecomb : bool;
  fUseModLarqlRecomb : bool;
  fLarqlChi0A : R;
  fLarqlChi0B : R;
  fLarqlChi0C : R;
  fLarqlChi0D : R;
  fLarqlAlpha : R;
  fLarqlBeta : R;
  fGeVToElectrons : R;
  fWion : R;
  fWph : R
}.

(** [ISCalcData], the value [CalcIonAndScint] returns. *)
Record ISCalcData : Type := mkISCalcData {
  energy_deposit : R;
  numElectrons : R;
  numPhotons : R;
  scintillationYieldRatio : R
}.

(** The constructor (lines 21-51).  The services it locates are its
    arguments here.  The C++ constructor always returns; [None] stands
    for the calculators it builds with a data member that is not a real
    number (a density or a yield of zero makes lines 33, 35 or 47 divide
    by zero). *)
Definition ISCalcCorrelated_new (detProp : DetectorPropertiesData)
    (LArG4PropHandle : LArG4Parameters) (sce : SpaceCharge)
    (larProp : LArProperties) : option ISCalcCorrelated :=
  let density := Density detProp (Temperature detProp) in
  recombk <- Recombk LArG4PropHandle /? density ;;
  modBoxB <- ModBoxB LArG4PropHandle /? density ;;
  let geVToElectrons := GeVToElectrons LArG4PropHandle in
  inv <- 1 /? geVToElectrons ;;
  ret {| fSCE := sce;
         fLArProp := larProp;
         fScintPreScale := ScintPreScale larProp;
         fRecombA := RecombA LArG4PropHandle;
         fRecombk := recombk;
         fModBoxA := ModBoxA LArG4PropHandle;
         fModBoxB := modBoxB;
         fUseModBoxRecomb := UseModBoxRecomb LArG4PropHandle;
         fUseModLarqlRecomb := UseModLarqlRecomb LArG4PropHandle;
         fLarqlChi0A := LarqlChi0A LArG4PropHandle;
         fLarqlChi0B := LarqlChi0B LArG4PropHandle;
         fLarqlChi0C := LarqlChi0C LArG4PropHandle;
         fLarqlChi0D := LarqlChi0D LArG4PropHandle;
         fLarqlAlpha := LarqlAlpha LArG4PropHandle;
         fLarqlBeta := LarqlBeta LArG4PropHandle;
         fGeVToElectrons := geVToElectrons;
         fWion := inv * 1e3;
         fWph := 19.5 * 1e-6 |}.

(** [GetScintYieldRatio] (lines 104-130). *)
Definition GetScintYieldRatio (calc : ISCalcCorrelated)
    (edep : SimEnergyDeposit) : R :=
  if negb (ScintByParticleType (fLArProp calc))
  then ScintYieldRatio (fLArProp calc)
  else
    match PdgCode edep with
    | 2212%Z => ProtonScintYieldRatio (fLArProp calc)
    | 13%Z
    | (-13)%Z => MuonScintYieldRatio (fLArProp calc)
    | 211%Z
    | (-211)%Z => PionScintYieldRatio (fLArProp calc)
    | 321%Z
    | (-321)%Z => KaonScintYieldRatio (fLArProp calc)
    | 1000020040%Z => AlphaScintYieldRatio (fLArProp calc)
    | 11%Z
    | (-11)%Z
    | 22%Z => ElectronScintYieldRatio (fLArProp calc)
    | _ => ElectronScintYieldRatio (fLArProp calc)
    end.

(** [EFieldAtStep] (lines 133-139). *)
Definition EFieldAtStep (calc : ISCalcCorrelated) (efield : R)
    (edep : SimEnergyDeposit) : R :=
  if negb (EnableSimEfieldSCE (fSCE calc)) then efield
  else
    let eFieldOffsets := GetEfieldOffsets (fSCE calc) (MidPoint edep) in
    efield * hypot (1 + geo.X eFieldOffsets) (geo.Y eFieldOffsets)
                   (geo.Z eFieldOffsets).

(** [EscapingEFraction] (lines 141-143): the LArQL chi0 function. *)
Definition EscapingEFraction (calc : ISCalcCorrelated) (dEdx : R) : option R :=
  fLarqlChi0A calc
    /? (fLarqlChi0B calc + exp (fLarqlChi0C calc + fLarqlChi0D calc * dEdx)).

(** [FieldCorrection] (lines 145-147): the LArQL f_corr function. *)
Definition FieldCorrection (calc : ISCalcCorrelated) (EF dEdx : R) : option R :=
  l <- log dEdx ;;
  q <- (- EF) /? (fLarqlAlpha calc * l + fLarqlBeta calc) ;;
  ret (exp q).

(** The value of [dEdx] after lines 64 and 69 of [CalcIonAndScint], from
    the energy and the float [ds] of line 63: the quotient behind the
    [ds <= 0.0] test, then the floor at 1.  The test leaves the division
    a non-zero divisor, so the value is total. *)
Definition dEdxAtStep (energy ds : R) : R :=
  let dEdx := if Rle_dec ds 0 then 0 else energy / ds in
  if Rlt_dec dEdx 1 then 1 else dEdx.

(** The value of [recomb] after lines 66 and 72-83 of [CalcIonAndScint]:
    the survival fraction of the selected model. *)
Definition ModelRecomb (calc : ISCalcCorrelated) (ds dEdx EFieldStep : R)
    : option R :=
  if fUseModBoxRecomb calc then
    if Rgt_dec ds 0 then
      Xi <- fModBoxB calc * dEdx /? EFieldStep ;;
      l <- log (fModBoxA calc + Xi) ;;
      l /? Xi
    else ret 0
  else
    t <- dEdx * fRecombk calc /? EFieldStep ;;
    fRecombA calc /? (1 + t).

(** The value of [recomb] after lines 85-87 of [CalcIonAndScint]: the
    LArQL term is added when the correction is on. *)
Definition CorrectedRecomb (calc : ISCalcCorrelated) (ds dEdx EFieldStep : R)
    : option R :=
  recomb <- ModelRecomb calc ds dEdx EFieldStep ;;
  if fUseModLarqlRecomb calc then
    esc <- EscapingEFraction calc dEdx ;;
    corr <- FieldCorrection calc EFieldStep dEdx ;;
    ret (recomb + esc * corr)
  else ret recomb.

(** [CalcIonAndScint] (lines 54-101). *)
Definition CalcIonAndScint (calc : ISCalcCorrelated)
    (detProp : DetectorPropertiesData) (edep : SimEnergyDeposit)
    : option ISCalcData :=
  let energy_deposit := Energy edep in
  Nq <- energy_deposit /? fWph calc ;;
  let ds := to_float (StepLength edep) in
  let EFieldStep := EFieldAtStep calc (Efield detProp) edep in
  let dEdx := dEdxAtStep energy_deposit ds in
  recomb <- CorrectedRecomb calc ds dEdx EFieldStep ;;
  t <- energy_deposit /? fWion calc ;;
  let num_electrons := t * recomb in
  let num_photons := (Nq - num_electrons) * fScintPreScale calc in
  ret {| energy_deposit := energy_deposit;
         numElectrons := num_electrons;
         numPhotons := num_photons;
         scintillationYieldRatio := GetScintYieldRatio calc edep |}.

(** ** Sample configurations and deposits

    The inputs at which the theorems below are instantiated.  The space
    charge service is off; the liquid argon has density 1.4 at 87 K; the
    yield is 1e9 electrons per GeV, so that the ionization work function
    is 1e-6 MeV. *)

Definition no_sce : SpaceCharge :=
  {| EnableSimEfieldSCE := false;
     GetEfieldOffsets := fun _ => geo.mkVector 0 0 0 |}.

Definition sample_larProp : LArProperties :=
  {| ScintPreScale := 0.03;
     ScintByParticleType := true;
     ScintYieldRatio := 0.3;
     ProtonScintYieldRatio := 0.29;
     MuonScintYieldRatio := 0.23;
     PionScintYieldRatio := 0.24;
     KaonScintYieldRatio := 0.25;
     AlphaScintYieldRatio := 0.56;
     ElectronScintYieldRatio := 0.27 |}.

Definition sample_detProp (efield : R) : DetectorPropertiesData :=
  {| Temperature := 87; Density := fun _ => 1.4; Efield := efield |}.

Definition sample_params (modbox larql : bool) (alpha beta : R)
    : LArG4Parameters :=
  {| RecombA := 0.8;
     Recombk := 0.0486;
     ModBoxA := 0.93;
     ModBoxB := 0.212;
     UseModBoxRecomb := modbox;
     UseModLarqlRecomb := larql;
     LarqlChi0A := 1;
     LarqlChi0B := 1;
     LarqlChi0C := 0;
     LarqlChi0D := 0;
     LarqlAlpha := alpha;
     LarqlBeta := beta;
     GeVToElectrons := 1e9 |}.

(** The calculator the constructor builds from the sample services. *)
Definition sample_calc (modbox larql : bool) (alpha beta : R)
    : ISCalcCorrelated :=
  {| fSCE := no_sce;
     fLArProp := sample_larProp;
     fScintPreScale := 0.03;
     fRecombA := 0.8;
     fRecombk := 0.0486 / 1.4;
     fModBoxA := 0.93;
     fModBoxB := 0.212 / 1.4;
     fUseModBoxRecomb := modbox;
     fUseModLarqlRecomb := larql;
     fLarqlChi0A := 1;
     fLarqlChi0B := 1;
     fLarqlChi0C := 0;
     fLarqlChi0D := 0;
     fLarqlAlpha := alpha;
     fLarqlBeta := beta;
     fGeVToElectrons := 1e9;
     fWion := 1 / 1e9 * 1e3;
     fWph := 19.5 * 1e-6 |}.

(** A deposit at the origin. *)
Definition deposit (energy ds : R) (pdg : Z) : SimEnergyDeposit :=
  {| Energy := energy;
     StepLength := ds;
     MidPoint := geo.mkVector 0 0 0;
     PdgCode := pdg |}.

(** The codes whose case of the switch in [GetScintYieldRatio] returns a
    ratio other than the electron one. *)
Definition heavy_code (code : Z) : bool :=
  ((code =? 2212) || (code =? 13) || (code =? -13) || (code =? 211)
   || (code =? -211) || (code =? 321) || (code =? -321)
   || (code =? 1000020040))%Z.

(** A deposit with another step length, the rest unchanged. *)
Definition with_StepLength (ds : R) (edep : SimEnergyDeposit) : SimEnergyDeposit :=
  {| Energy := Energy edep;
     StepLength := ds;
     MidPoint := MidPoint edep;
     PdgCode := PdgCode edep |}.

(** The part of a result that the particle code is claimed not to reach. *)
Definition quanta (r : ISCalcData) : R * R * R :=
  (energy_deposit r, numElectrons r, numPhotons r).

(** The calculator with the LArQL correction switched [on] or off, the
    rest unchanged. *)
Definition with_UseModLarqlRecomb (on : bool) (calc : ISCalcCorrelated)
    : ISCalcCorrelated :=
  {| fSCE := fSCE calc;
     fLArProp := fLArProp calc;
     fScintPreScale := fScintPreScale calc;
     fRecombA := fRecombA calc;
     fRecombk := fRecombk calc;
     fModBoxA := fModBoxA calc;
     fModBoxB := fModBoxB calc;
     fUseModBoxRecomb := fUseModBoxRecomb calc;
     fUseModLarqlRecomb := on;
     fLarqlChi0A := fLarqlChi0A calc;
     fLarqlChi0B := fLarqlChi0B calc;
     fLarqlChi0C := fLarqlChi0C calc;
     fLarqlChi0D := fLarqlChi0D calc;
     fLarqlAlpha := fLarqlAlpha calc;
     fLarqlBeta := fLarqlBeta calc;
     fGeVToElectrons := fGeVToElectrons calc;
     fWion := fWion calc;
     fWph := fWph calc |}.


(** A deposit with another particle code, the rest unchanged. *)
Definition with_PdgCode (code : Z) (edep : SimEnergyDeposit) : SimEnergyDeposit :=
  {| Energy := Energy edep;
     StepLength := StepLength edep;
     MidPoint := MidPoint edep;
     PdgCode := code |}.

(** A space charge service that is on and returns the same offsets
    everywhere. *)
Definition uniform_sce (dx dy dz : R) : SpaceCharge :=
  {| EnableSimEfieldSCE := true;
     GetEfieldOffsets := fun _ => geo.mkVector dx dy dz |}.

(** The calculator reading another space charge service. *)
Definition with_SCE (sce : SpaceCharge) (calc : ISCalcCorrelated)
    : ISCalcCorrelated :=
  {| fSCE := sce;
     fLArProp := fLArProp calc;
     fScintPreScale := fScintPreScale calc;
     fRecombA := fRecombA calc;
     fRecombk := fRecombk calc;
     fModBoxA := fModBoxA calc;
     fModBoxB := fModBoxB calc;
     fUseModBoxRecomb := fUseModBoxRecomb calc;
     fUseModLarqlRecomb := fUseModLarqlRecomb calc;
     fLarqlChi0A := fLarqlChi0A calc;
     fLarqlChi0B := fLarqlChi0B calc;
     fLarqlChi0C := fLarqlChi0C calc;
     fLarqlChi0D := fLarqlChi0D calc;
     fLarqlAlpha := fLarqlAlpha calc;
     fLarqlBeta := fLarqlBeta calc;
     fGeVToElectrons := fGeVToElectrons calc;
     fWion := fWion calc;
     fWph := fWph calc |}.

(** The sample calculator, Modified-Box model and correction on, with
    other constants of the LArQL chi0 function. *)
Definition sample_larql_calc (chi0A chi0B chi0C chi0D : R) : ISCalcCorrelated :=
  {| fSCE := no_sce;
     fLArProp := sample_larProp;
     fScintPreScale := 0.03;
     fRecombA := 0.8;
     fRecombk := 0.0486 / 1.4;
     fModBoxA := 0.93;
     fModBoxB := 0.212 / 1.4;
     fUseModBoxRecomb := true;
     fUseModLarqlRecomb := true;
     fLarqlChi0A := chi0A;
     fLarqlChi0B := chi0B;
     fLarqlChi0C := chi0C;
     fLarqlChi0D := chi0D;
     fLarqlAlpha := 0;
     fLarqlBeta := 1;
     fGeVToElectrons := 1e9;
     fWion := 1 / 1e9 * 1e3;
     fWph := 19.5 * 1e-6 |}.

(** A Birks-style calculator with a yield of 4.237e7 electrons per GeV,
    the correction off. *)
Definition birks_calc : ISCalcCorrelated :=
  {| fSCE := no_sce;
     fLArProp := sample_larProp;
     fScintPreScale := 0.03;
     fRecombA := 0.8;
     fRecombk := 0.0486 / 1.4;
     fModBoxA := 0.93;
     fModBoxB := 0.212 / 1.4;
     fUseModBoxRecomb := false;
     fUseModLarqlRecomb := false;
     fLarqlChi0A := 1;
     fLarqlChi0B := 1;
     fLarqlChi0C := 0;
     fLarqlChi0D := 0;
     fLarqlAlpha := 0;
     fLarqlBeta := 1;
     fGeVToElectrons := 4.237e7;
     fWion := 1 / 4.237e7 * 1e3;
     fWph := 19.5 * 1e-6 |}.

(** ** Partial arithmetic: when it is defined *)

Lemma div_defined (x y : R) : y <> 0 -> x /? y = Some (x / y).
Proof.
  intros Hy. unfold div. destruct (Req_dec_T y 0) as [E | _].
  - contradiction.
  - reflexivity.
Qed.

Lemma div_by_zero (x y : R) : y = 0 -> x /? y = None.
Proof.
  intros Hy. unfold div. destruct (Req_dec_T y 0) as [_ | N].
  - reflexivity.
  - contradiction.
Qed.

Lemma div_inv (x y q : R) : x /? y = Some q -> y <> 0 /\ q = x / y.
Proof.
  unfold div. destruct (Req_dec_T y 0) as [E | N]; intros H.
  - discriminate H.
  - injection H as <-. split; [exact N | reflexivity].
Qed.

Lemma log_defined (x : R) : 0 < x -> log x = Some (ln x).
Proof.
  intros Hx. unfold log. destruct (Rlt_dec 0 x) as [_ | N].
  - reflexivity.
  - contradiction.
Qed.

Lemma bind_inv {A B : Type} (c : option A) (k : A -> option B) (b : B) :
  bind c k = Some b -> exists a, c = Some a /\ k a = Some b.
Proof.
  destruct c as [a |]; simpl; intros H.
  - exists a. split; [reflexivity | exact H].
  - discriminate H.
Qed.

(** ** Narrowing to single precision: values and signs *)

Lemma ln_2_pos : 0 < ln 2.
Proof. rewrite <- ln_1. apply ln_increasing; lra. Qed.

Lemma ln_powerRZ_2 (e : Z) : ln (powerRZ 2 e) = IZR e * ln 2.
Proof. rewrite powerRZ_Rpower by lra. apply ln_Rpower. Qed.

Lemma ilog2_unique (a : R) (e : Z) :
  powerRZ 2 e <= a < powerRZ 2 (e + 1) -> ilog2 a = e.
Proof.
  intros [Hlo Hhi].
  pose proof ln_2_pos as H2.
  pose proof (powerRZ_lt 2 e ltac:(lra)) as Hp.
  assert (Ha : 0 < a) by lra.
  assert (L1 : IZR e * ln 2 <= ln a).
  { rewrite <- ln_powerRZ_2. destruct Hlo as [Hlt | <-].
    - left. apply ln_increasing; assumption.
    - apply Rle_refl. }
  assert (L2 : ln a < (IZR e + 1) * ln 2).
  { rewrite <- plus_IZR, <- ln_powerRZ_2. apply ln_increasing; assumption. }
  unfold ilog2. symmetry. apply Int_part_spec.
  assert (Hq : IZR e <= ln a / ln 2 < IZR e + 1).
  { split.
    - apply (Rmult_le_reg_r (ln 2)); [exact H2 |].
      unfold Rdiv. rewrite Rmult_assoc, Rinv_l, Rmult_1_r by lra. exact L1.
    - apply (Rmult_lt_reg_r (ln 2)); [exact H2 |].
      unfold Rdiv. rewrite Rmult_assoc, Rinv_l, Rmult_1_r by lra. exact L2. }
  lra.
Qed.

Lemma rne_near (m : R) (n : Z) :
  IZR n - 1 / 2 < m < IZR n + 1 / 2 -> rne m = n.
Proof.
  intros [Hlo Hhi]. unfold rne.
  destruct (Rle_dec (IZR n) m) as [Hge | Hlt].
  - assert (Hf : n = Int_part m) by (apply Int_part_spec; lra).
    rewrite <- Hf.
    destruct (Rlt_dec (m - IZR n) (1 / 2)) as [_ | N]; [reflexivity | lra].
  - assert (Hf : (n - 1)%Z = Int_part m).
    { apply Int_part_spec. rewrite minus_IZR. lra. }
    rewrite <- Hf. rewrite minus_IZR.
    destruct (Rlt_dec (m - (IZR n - 1)) (1 / 2)) as [L | _]; [lra |].
    destruct (Rlt_dec (1 / 2) (m - (IZR n - 1))) as [_ | N]; [lia | lra].
Qed.

Lemma rne_nonneg (m : R) : 0 <= m -> (0 <= rne m)%Z.
Proof.
  intros Hm.
  assert (Hf : (0 <= Int_part m)%Z).
  { destruct (base_Int_part m) as [_ Hb].
    apply le_IZR. apply Rnot_lt_le. intros Hneg.
    assert (IZR (Int_part m) <= -1).
    { replace (-1) with (IZR (-1)) by reflexivity. apply IZR_le.
      apply lt_IZR in Hneg. lia. }
    lra. }
  unfold rne.
  destruct (Rlt_dec (m - IZR (Int_part m)) (1 / 2)); [exact Hf |].
  destruct (Rlt_dec (1 / 2) (m - IZR (Int_part m))); [lia |].
  destruct (Z.even (Int_part m)); lia.
Qed.

Lemma ulp_pos (a : R) : 0 < ulp a.
Proof. unfold ulp. apply powerRZ_lt. lra. Qed.

Lemma to_float_0 : to_float 0 = 0.
Proof.
  unfold to_float. destruct (Req_dec_T 0 0) as [_ | N]; [reflexivity |].
  exfalso. apply N. reflexivity.
Qed.

Lemma to_float_nonneg (x : R) : 0 <= x -> 0 <= to_float x.
Proof.
  intros Hx. unfold to_float.
  destruct (Req_dec_T x 0) as [_ | Hnz]; [apply Rle_refl |].
  destruct (Rlt_dec x 0) as [L | _]; [lra |].
  apply Rmult_le_pos; [| left; apply ulp_pos].
  apply IZR_le. apply rne_nonneg.
  unfold Rdiv. apply Rmult_le_pos; [apply Rabs_pos |].
  left. apply Rinv_0_lt_compat. apply ulp_pos.
Qed.

Lemma to_float_nonpos (x : R) : x <= 0 -> to_float x <= 0.
Proof.
  intros Hx. unfold to_float.
  destruct (Req_dec_T x 0) as [_ | Hnz]; [apply Rle_refl |].
  destruct (Rlt_dec x 0) as [_ | N]; [| lra].
  assert (0 <= IZR (rne (Rabs x / ulp (Rabs x))) * ulp (Rabs x)).
  { apply Rmult_le_pos; [| left; apply ulp_pos].
    apply IZR_le. apply rne_nonneg.
    unfold Rdiv. apply Rmult_le_pos; [apply Rabs_pos |].
    left. apply Rinv_0_lt_compat. apply ulp_pos. }
  lra.
Qed.

Lemma to_float_positive (x : R) : 0 < to_float x -> 0 < x.
Proof.
  intros H. destruct (Rlt_dec 0 x) as [P | N]; [exact P |].
  pose proof (to_float_nonpos x ltac:(lra)). lra.
Qed.

Lemma to_float_near (x : R) (e n : Z) :
  powerRZ 2 e <= x < powerRZ 2 (e + 1) ->
  (-126 <= e)%Z ->
  IZR n - 1 / 2 < x / powerRZ 2 (e - 23) < IZR n + 1 / 2 ->
  to_float x = IZR n * powerRZ 2 (e - 23).
Proof.
  intros Hbin He Hn.
  pose proof (powerRZ_lt 2 e ltac:(lra)) as Hp.
  assert (Hx : 0 < x) by lra.
  unfold to_float.
  destruct (Req_dec_T x 0) as [E | _]; [lra |].
  destruct (Rlt_dec x 0) as [L | _]; [lra |].
  rewrite (Rabs_pos_eq x) by lra.
  unfold ulp. rewrite (ilog2_unique x e Hbin).
  rewrite Z.max_l by lia.
  rewrite (rne_near _ n Hn). reflexivity.
Qed.

Lemma to_float_opp (x : R) : to_float (- x) = - to_float x.
Proof.
  unfold to_float.
  destruct (Req_dec_T x 0) as [E | Hnz].
  - subst x. rewrite Ropp_0.
    destruct (Req_dec_T 0 0) as [_ | N]; [lra | exfalso; apply N; reflexivity].
  - destruct (Req_dec_T (- x) 0) as [E | _]; [lra |].
    rewrite Rabs_Ropp.
    destruct (Rlt_dec (- x) 0) as [L | G], (Rlt_dec x 0) as [L' | G']; lra.
Qed.

(** Multiplying by a power of two commutes with the narrowing, as long
    as both numbers are in the normal range of [float]. *)





(** The step lengths of the sample deposits. *)

Lemma to_float_1 : to_float 1 = 1.
Proof.
  rewrite (to_float_near 1 0 8388608); [| | lia |]; simpl; lra.
Qed.

Lemma to_float_half : to_float 0.5 = 0.5.
Proof.
  rewrite (to_float_near 0.5 (-1) 8388608); [| | lia |]; simpl; lra.
Qed.

Lemma to_float_minus_1 : to_float (-1) = -1.
Proof.
  replace (-1) with (- (1)) by lra.
  rewrite to_float_opp, to_float_1. reflexivity.
Qed.



(** ** The floor on dE/dx *)

Lemma dEdxAtStep_floor (energy ds : R) : 1 <= dEdxAtStep energy ds.
Proof.
  unfold dEdxAtStep.
  destruct (Rlt_dec (if Rle_dec ds 0 then 0 else energy / ds) 1) as [_ | N].
  - apply Rle_refl.
  - apply Rnot_lt_le. exact N.
Qed.

Lemma dEdxAtStep_no_step (energy ds : R) : ds <= 0 -> dEdxAtStep energy ds = 1.
Proof.
  intros Hds. unfold dEdxAtStep.
  destruct (Rle_dec ds 0) as [_ | N]; [| contradiction].
  destruct (Rlt_dec 0 1) as [_ | N]; [reflexivity | lra].
Qed.

Lemma dEdxAtStep_below (energy ds : R) :
  0 < ds -> energy / ds <= 1 -> dEdxAtStep energy ds = 1.
Proof.
  intros Hds Hq. unfold dEdxAtStep.
  destruct (Rle_dec ds 0) as [L | _]; [lra |].
  destruct (Rlt_dec (energy / ds) 1) as [_ | N]; [reflexivity | lra].
Qed.

Lemma dEdxAtStep_above (energy ds : R) :
  0 < ds -> 1 <= energy / ds -> dEdxAtStep energy ds = energy / ds.
Proof.
  intros Hds Hq. unfold dEdxAtStep.
  destruct (Rle_dec ds 0) as [L | _]; [lra |].
  destruct (Rlt_dec (energy / ds) 1) as [L | _]; [lra | reflexivity].
Qed.

(** ** What the constructor establishes *)

Section Constructed.

Variable detProp0 : DetectorPropertiesData.
Variable params : LArG4Parameters.
Variable sce : SpaceCharge.
Variable larProp : LArProperties.
Variable calc : ISCalcCorrelated.
Hypothesis built : ISCalcCorrelated_new detProp0 params sce larProp = Some calc.

Lemma new_inv :
  Density detProp0 (Temperature detProp0) <> 0 /\
  GeVToElectrons params <> 0 /\
  calc =
    {| fSCE := sce;
       fLArProp := larProp;
       fScintPreScale := ScintPreScale larProp;
       fRecombA := RecombA params;
       fRecombk := Recombk params / Density detProp0 (Temperature detProp0);
       fModBoxA := ModBoxA params;
       fModBoxB := ModBoxB params / Density detProp0 (Temperature detProp0);
       fUseModBoxRecomb := UseModBoxRecomb params;
       fUseModLarqlRecomb := UseModLarqlRecomb params;
       fLarqlChi0A := LarqlChi0A params;
       fLarqlChi0B := LarqlChi0B params;
       fLarqlChi0C := LarqlChi0C params;
       fLarqlChi0D := LarqlChi0D params;
       fLarqlAlpha := LarqlAlpha params;
       fLarqlBeta := LarqlBeta params;
       fGeVToElectrons := GeVToElectrons params;
       fWion := 1 / GeVToElectrons params * 1e3;
       fWph := 19.5 * 1e-6 |}.
Proof.
  unfold ISCalcCorrelated_new in built.
  apply bind_inv in built. destruct built as (k & Hk & H1).
  apply bind_inv in H1. destruct H1 as (b & Hb & H2).
  apply bind_inv in H2. destruct H2 as (i & Hi & H3).
  apply div_inv in Hk. destruct Hk as [Hd ->].
  apply div_inv in Hb. destruct Hb as [_ ->].
  apply div_inv in Hi. destruct Hi as [Hg ->].
  unfold ret in H3. injection H3 as <-.
  repeat split; assumption.
Qed.

Lemma new_Wph : fWph calc = 19.5 * 1e-6.
Proof. destruct new_inv as (_ & _ & E). rewrite E. reflexivity. Qed.

Lemma new_Wph_nonzero : fWph calc <> 0.
Proof. rewrite new_Wph. lra. Qed.

Lemma new_Wion_nonzero : fWion calc <> 0.
Proof.
  destruct new_inv as (_ & Hg & E). rewrite E. simpl.
  intros H.
  assert (Hinv : / GeVToElectrons params <> 0) by (apply Rinv_neq_0_compat; exact Hg).
  apply Hinv. lra.
Qed.

Lemma new_ScintPreScale : fScintPreScale calc = ScintPreScale larProp.
Proof. destruct new_inv as (_ & _ & E). rewrite E. reflexivity. Qed.

End Constructed.

(** The constructor succeeds exactly when the density and the
    electrons-per-GeV yield are not zero. *)
Lemma new_defined (detProp0 : DetectorPropertiesData) (params : LArG4Parameters)
    (sce : SpaceCharge) (larProp : LArProperties) :
  Density detProp0 (Temperature detProp0) <> 0 ->
  GeVToElectrons params <> 0 ->
  exists calc, ISCalcCorrelated_new detProp0 params sce larProp = Some calc.
Proof.
  intros Hd Hg. unfold ISCalcCorrelated_new.
  rewrite !(div_defined _ _ Hd), (div_defined _ _ Hg). simpl.
  eexists. reflexivity.
Qed.

(** ** How the step length enters the result

    Apart from [dEdxAtStep], the step length is read once, by the
    [ds > 0] test of the Modified-Box branch. *)

Lemma ModelRecomb_step_sign (calc : ISCalcCorrelated) (ds1 ds2 dEdx EFieldStep : R) :
  (0 < ds1 <-> 0 < ds2) ->
  ModelRecomb calc ds1 dEdx EFieldStep = ModelRecomb calc ds2 dEdx EFieldStep.
Proof.
  intros Hs. unfold ModelRecomb.
  destruct (fUseModBoxRecomb calc); [| reflexivity].
  destruct (Rgt_dec ds1 0) as [P1 | N1], (Rgt_dec ds2 0) as [P2 | N2];
    try reflexivity.
  - exfalso. apply N2. apply Hs. exact P1.
  - exfalso. apply N1. apply Hs. exact P2.
Qed.

Lemma CalcIonAndScint_ext (calc : ISCalcCorrelated)
    (detProp : DetectorPropertiesData) (e1 e2 : SimEnergyDeposit) :
  Energy e1 = Energy e2 ->
  MidPoint e1 = MidPoint e2 ->
  PdgCode e1 = PdgCode e2 ->
  (0 < to_float (StepLength e1) <-> 0 < to_float (StepLength e2)) ->
  dEdxAtStep (Energy e1) (to_float (StepLength e1))
  = dEdxAtStep (Energy e2) (to_float (StepLength e2)) ->
  CalcIonAndScint calc detProp e1 = CalcIonAndScint calc detProp e2.
Proof.
  intros He Hm Hp Hs Hd.
  unfold CalcIonAndScint, CorrectedRecomb, GetScintYieldRatio, EFieldAtStep.
  rewrite Hd, Hm, Hp, <- He.
  rewrite (ModelRecomb_step_sign calc _ _ _ _ Hs).
  reflexivity.
Qed.

(** The result in terms of the corrected survival fraction, for a
    calculator whose two work functions are not zero. *)
Lemma CalcIonAndScint_defined (calc : ISCalcCorrelated)
    (detProp : DetectorPropertiesData) (edep : SimEnergyDeposit) (recomb : R) :
  fWph calc <> 0 ->
  fWion calc <> 0 ->
  CorrectedRecomb calc (to_float (StepLength edep))
    (dEdxAtStep (Energy edep) (to_float (StepLength edep)))
    (EFieldAtStep calc (Efield detProp) edep) = Some recomb ->
  CalcIonAndScint calc detProp edep =
    Some {| energy_deposit := Energy edep;
            numElectrons := Energy edep / fWion calc * recomb;
            numPhotons :=
              (Energy edep / fWph calc - Energy edep / fWion calc * recomb)
              * fScintPreScale calc;
            scintillationYieldRatio := GetScintYieldRatio calc edep |}.
Proof.
  intros Hph Hion Hr. unfold CalcIonAndScint.
  rewrite (div_defined _ _ Hph). simpl. rewrite Hr. simpl.
  rewrite (div_defined _ _ Hion). reflexivity.
Qed.

Lemma CalcIonAndScint_inv (calc : ISCalcCorrelated)
    (detProp : DetectorPropertiesData) (edep : SimEnergyDeposit) (r : ISCalcData) :
  CalcIonAndScint calc detProp edep = Some r ->
  exists recomb,
    CorrectedRecomb calc (to_float (StepLength edep))
      (dEdxAtStep (Energy edep) (to_float (StepLength edep)))
      (EFieldAtStep calc (Efield detProp) edep) = Some recomb /\
    fWph calc <> 0 /\ fWion calc <> 0 /\
    r = {| energy_deposit := Energy edep;
           numElectrons := Energy edep / fWion calc * recomb;
           numPhotons :=
             (Energy edep / fWph calc - Energy edep / fWion calc * recomb)
             * fScintPreScale calc;
           scintillationYieldRatio := GetScintYieldRatio calc edep |}.
Proof.
  unfold CalcIonAndScint. intros H.
  apply bind_inv in H. destruct H as (Nq & HNq & H).
  apply bind_inv in H. destruct H as (recomb & Hr & H).
  apply bind_inv in H. destruct H as (t & Ht & H).
  apply div_inv in HNq. destruct HNq as [Hph ->].
  apply div_inv in Ht. destruct Ht as [Hion ->].
  unfold ret in H. injection H as <-.
  exists recomb. repeat split; assumption.
Qed.

Lemma CalcIonAndScint_undefined (calc : ISCalcCorrelated)
    (detProp : DetectorPropertiesData) (edep : SimEnergyDeposit) :
  CorrectedRecomb calc (to_float (StepLength edep))
    (dEdxAtStep (Energy edep) (to_float (StepLength edep)))
    (EFieldAtStep calc (Efield detProp) edep) = None ->
  CalcIonAndScint calc detProp edep = None.
Proof.
  intros Hr. unfold CalcIonAndScint.
  destruct (Energy edep /? fWph calc) as [Nq |]; simpl; [| reflexivity].
  rewrite Hr. reflexivity.
Qed.

Lemma CorrectedRecomb_undefined (calc : ISCalcCorrelated) (ds dEdx EFieldStep : R) :
  ModelRecomb calc ds dEdx EFieldStep = None ->
  CorrectedRecomb calc ds dEdx EFieldStep = None.
Proof. intros H. unfold CorrectedRecomb. rewrite H. reflexivity. Qed.

Lemma CorrectedRecomb_no_larql (calc : ISCalcCorrelated) (ds dEdx EFieldStep : R) :
  fUseModLarqlRecomb calc = false ->
  CorrectedRecomb calc ds dEdx EFieldStep = ModelRecomb calc ds dEdx EFieldStep.
Proof.
  intros H. unfold CorrectedRecomb. rewrite H.
  destruct (ModelRecomb calc ds dEdx EFieldStep); reflexivity.
Qed.

(** ** The sample calculator *)

Lemma sample_calc_built (modbox larql : bool) (alpha beta efield : R) :
  ISCalcCorrelated_new (sample_detProp efield) (sample_params modbox larql alpha beta)
    no_sce sample_larProp = Some (sample_calc modbox larql alpha beta).
Proof.
  unfold ISCalcCorrelated_new, sample_detProp, sample_params.
  cbn [Density Temperature Recombk ModBoxB GeVToElectrons].
  rewrite !div_defined by lra.
  reflexivity.
Qed.

(** ** Running the calculator on concrete inputs *)

Ltac unfold_calc :=
  unfold CalcIonAndScint, CorrectedRecomb, ModelRecomb, EscapingEFraction,
    FieldCorrection, EFieldAtStep, GetScintYieldRatio;
  cbn -[exp ln Rdiv Rmult Rplus Ropp Rminus Rlt_dec Rgt_dec Rle_dec Req_dec_T
        IZR Q2R div log dEdxAtStep to_float];
  rewrite ?to_float_0, ?to_float_1, ?to_float_half.

Ltac run_calc :=
  repeat first
    [ rewrite div_defined by lra
    | rewrite log_defined by lra
    | progress cbn [bind ret] ].

(** ** C1: a zero-length step under the Modified-Box model *)

Lemma ModelRecomb_modbox_no_step (calc : ISCalcCorrelated) (ds dEdx EFieldStep : R) :
  fUseModBoxRecomb calc = true ->
  ds <= 0 ->
  ModelRecomb calc ds dEdx EFieldStep = Some 0.
Proof.
  intros Hbox Hds. unfold ModelRecomb. rewrite Hbox.
  destruct (Rgt_dec ds 0) as [P | _].
  - exfalso. lra.
  - reflexivity.
Qed.

(** C1, as stated, fails when the LArQL correction is on: the sample
    calculator with the Modified-Box model and the correction enabled
    (alpha = 0, beta = 1), in a field of 0.5, returns for a deposit of
    5 MeV with step length 0 the electron count 2500000 * exp(-1/2),
    which is not 0. *)
Lemma zero_step_larql_electrons :
  fUseModBoxRecomb (sample_calc true true 0 1) = true /\
  StepLength (deposit 5 0 11) = 0 /\
  option_map numElectrons
    (CalcIonAndScint (sample_calc true true 0 1) (sample_detProp 0.5)
       (deposit 5 0 11))
  = Some (2500000 * exp (- 1 / 2)) /\
  2500000 * exp (- 1 / 2) <> 0.
Proof.
  split; [reflexivity |]. split; [reflexivity |]. split.
  - unfold_calc.
    rewrite dEdxAtStep_no_step by lra.
    destruct (Rgt_dec 0 0) as [P | _]; [lra |].
    assert (E0 : exp (0 + 0 * 1) = 1) by (rewrite <- exp_0; f_equal; lra).
    rewrite E0. run_calc. rewrite ln_1. run_calc.
    unfold ret. cbn [option_map numElectrons].
    f_equal.
    replace (- (0.5) / (0 * 0 + 1)) with (- 1 / 2) by lra.
    lra.
  - pose proof (exp_pos (- 1 / 2)). lra.
Qed.

(** C1 (amended).  Under the Modified-Box model, for every deposit with
    step length 0 the Modified-Box branch sets [recomb] to exactly 0,
    whatever the energy and the field.  With the LArQL correction off
    that is the final [recomb], and the result is produced with an
    electron count of 0.  With the correction on, [recomb] is the LArQL
    term added to that 0. *)
Theorem modbox_zero_step (detProp0 : DetectorPropertiesData)
    (params : LArG4Parameters) (sce : SpaceCharge) (larProp : LArProperties)
    (calc : ISCalcCorrelated) :
  ISCalcCorrelated_new detProp0 params sce larProp = Some calc ->
  fUseModBoxRecomb calc = true ->
  forall (detProp : DetectorPropertiesData) (edep : SimEnergyDeposit),
  StepLength edep = 0 ->
  (forall dEdx EFieldStep : R,
     ModelRecomb calc (to_float (StepLength edep)) dEdx EFieldStep = Some 0) /\
  (fUseModLarqlRecomb calc = false ->
     (forall dEdx EFieldStep : R,
        CorrectedRecomb calc (to_float (StepLength edep)) dEdx EFieldStep = Some 0) /\
     exists r : ISCalcData,
       CalcIonAndScint calc detProp edep = Some r /\ numElectrons r = 0) /\
  (fUseModLarqlRecomb calc = true ->
     forall dEdx EFieldStep : R,
       CorrectedRecomb calc (to_float (StepLength edep)) dEdx EFieldStep =
         (esc <- EscapingEFraction calc dEdx ;;
          corr <- FieldCorrection calc EFieldStep dEdx ;;
          ret (0 + esc * corr))).
Proof.
  intros Hnew Hbox detProp edep Hds.
  assert (Hmodel : forall dEdx EFieldStep : R,
             ModelRecomb calc (to_float (StepLength edep)) dEdx EFieldStep = Some 0).
  { intros dEdx EFieldStep. apply ModelRecomb_modbox_no_step; [exact Hbox |].
    rewrite Hds, to_float_0. apply Rle_refl. }
  split; [exact Hmodel |]. split.
  - intros Hoff.
    assert (Hcorr : forall dEdx EFieldStep : R,
               CorrectedRecomb calc (to_float (StepLength edep)) dEdx EFieldStep = Some 0).
    { intros dEdx EFieldStep. rewrite CorrectedRecomb_no_larql by exact Hoff.
      apply Hmodel. }
    split; [exact Hcorr |].
    eexists. split.
    + apply CalcIonAndScint_defined.
      * exact (new_Wph_nonzero _ _ _ _ _ Hnew).
      * exact (new_Wion_nonzero _ _ _ _ _ Hnew).
      * apply Hcorr.
    + cbn [numElectrons]. apply Rmult_0_r.
  - intros Hon dEdx EFieldStep. unfold CorrectedRecomb.
    rewrite Hmodel, Hon. reflexivity.
Qed.

Lemma modbox_zero_step_witness :
  exists r : ISCalcData,
    CalcIonAndScint (sample_calc true false 0 1) (sample_detProp 0.5)
      (deposit 5 0 11) = Some r /\
    numElectrons r = 0.
Proof.
  exact (proj2
           (proj1 (proj2
              (modbox_zero_step (sample_detProp 0.5) (sample_params true false 0 1)
                 no_sce sample_larProp (sample_calc true false 0 1)
                 (sample_calc_built true false 0 1 0.5) eq_refl
                 (sample_detProp 0.5) (deposit 5 0 11) eq_refl))
              eq_refl)).
Defined.

(** ** C2: the floor on dE/dx *)




(** ** C3: the photon count *)

(** C3.  For a calculator the constructor built, a result is returned
    whenever the survival fraction is defined, and the photon count of
    every result is (Nq - electrons) * scintPreScale with
    Nq = energy / (19.5 * 1e-6); nothing clamps it, so it is negative
    when the electron count exceeds Nq and the pre-scale is positive. *)
Theorem photons_anticorrelated (detProp0 : DetectorPropertiesData)
    (params : LArG4Parameters) (sce : SpaceCharge) (larProp : LArProperties)
    (calc : ISCalcCorrelated) :
  ISCalcCorrelated_new detProp0 params sce larProp = Some calc ->
  forall (detProp : DetectorPropertiesData) (edep : SimEnergyDeposit),
  (forall recomb : R,
     CorrectedRecomb calc (to_float (StepLength edep))
       (dEdxAtStep (Energy edep) (to_float (StepLength edep)))
       (EFieldAtStep calc (Efield detProp) edep) = Some recomb ->
     exists r : ISCalcData, CalcIonAndScint calc detProp edep = Some r) /\
  (forall r : ISCalcData,
     CalcIonAndScint calc detProp edep = Some r ->
     numPhotons r =
       (Energy edep / (19.5 * 1e-6) - numElectrons r) * ScintPreScale larProp /\
     (Energy edep / (19.5 * 1e-6) < numElectrons r ->
      0 < ScintPreScale larProp ->
      numPhotons r < 0)).
Proof.
  intros Hnew detProp edep. split.
  - intros recomb Hr. eexists.
    apply CalcIonAndScint_defined.
    + exact (new_Wph_nonzero _ _ _ _ _ Hnew).
    + exact (new_Wion_nonzero _ _ _ _ _ Hnew).
    + exact Hr.
  - intros r Hr.
    apply CalcIonAndScint_inv in Hr.
    destruct Hr as (recomb & _ & _ & _ & ->).
    cbn [numPhotons numElectrons].
    rewrite (new_Wph _ _ _ _ _ Hnew), (new_ScintPreScale _ _ _ _ _ Hnew).
    split; [reflexivity |].
    intros Hlt Hpre.
    rewrite <- (Rmult_0_l (ScintPreScale larProp)).
    apply Rmult_lt_compat_r; [exact Hpre | lra].
Qed.

(** The Birks-style sample calculator on a deposit of 2 MeV over 1 cm in
    a field of 0.5. *)
Lemma birks_sample_run :
  CalcIonAndScint (sample_calc false false 0 1) (sample_detProp 0.5)
    (deposit 2 1 13) =
  Some {| energy_deposit := 2;
          numElectrons := 2 / (1 / 1e9 * 1e3)
                          * (0.8 / (1 + 2 * (0.0486 / 1.4) / 0.5));
          numPhotons := (2 / (19.5 * 1e-6)
                         - 2 / (1 / 1e9 * 1e3)
                           * (0.8 / (1 + 2 * (0.0486 / 1.4) / 0.5))) * 0.03;
          scintillationYieldRatio := 0.23 |}.
Proof.
  unfold_calc.
  rewrite dEdxAtStep_above by lra.
  run_calc. unfold ret. f_equal. f_equal; lra.
Qed.

(** The Modified-Box sample calculator on the same deposit, as an
    electron: Xi = (0.212 / 1.4) * 2 / 0.5 and recomb = ln(0.93 + Xi) / Xi. *)
Lemma modbox_sample_run :
  CalcIonAndScint (sample_calc true false 0 1) (sample_detProp 0.5)
    (deposit 2 1 11) =
  Some {| energy_deposit := 2;
          numElectrons :=
            2 / (1 / 1e9 * 1e3)
            * (ln (0.93 + 0.212 / 1.4 * 2 / 0.5) / (0.212 / 1.4 * 2 / 0.5));
          numPhotons :=
            (2 / (19.5 * 1e-6)
             - 2 / (1 / 1e9 * 1e3)
               * (ln (0.93 + 0.212 / 1.4 * 2 / 0.5)
                  / (0.212 / 1.4 * 2 / 0.5))) * 0.03;
          scintillationYieldRatio := 0.27 |}.
Proof.
  unfold_calc.
  rewrite dEdxAtStep_above by lra.
  destruct (Rgt_dec 1 0) as [_ | N]; [| lra].
  replace (2 / 1) with 2 by lra.
  run_calc. unfold ret.
  replace (1 / (1 * 1000000000) * (1 * 1000)) with (1 / 1e9 * 1e3) by lra.
  replace (19.5 * (1 / 1000000)) with (19.5 * 1e-6) by lra.
  reflexivity.
Qed.

Lemma photons_anticorrelated_witness :
  exists r : ISCalcData,
    CalcIonAndScint (sample_calc false false 0 1) (sample_detProp 0.5)
      (deposit 2 1 13) = Some r /\
    numPhotons r < 0.
Proof.
  eexists. split; [exact birks_sample_run |].
  apply (proj2 (photons_anticorrelated (sample_detProp 0.5)
                  (sample_params false false 0 1) no_sce sample_larProp
                  (sample_calc false false 0 1)
                  (sample_calc_built false false 0 1 0.5)
                  (sample_detProp 0.5) (deposit 2 1 13))
          _ birks_sample_run);
    cbn [numElectrons Energy deposit ScintPreScale sample_larProp]; lra.
Defined.

(** ** C4: the Birks-style branch in a zero field *)

(** C4.  With the Modified-Box model off and the field distortion off,
    a zero ambient field is the effective field unchanged, the division
    [dEdx * fRecombk / EFieldStep] of the Birks-style formula has divisor
    zero, and no result is returned. *)
Theorem birks_zero_field (calc : ISCalcCorrelated)
    (detProp : DetectorPropertiesData) (edep : SimEnergyDeposit) :
  fUseModBoxRecomb calc = false ->
  EnableSimEfieldSCE (fSCE calc) = false ->
  Efield detProp = 0 ->
  EFieldAtStep calc (Efield detProp) edep = 0 /\
  dEdxAtStep (Energy edep) (to_float (StepLength edep)) * fRecombk calc
    /? EFieldAtStep calc (Efield detProp) edep = None /\
  ModelRecomb calc (to_float (StepLength edep))
    (dEdxAtStep (Energy edep) (to_float (StepLength edep)))
    (EFieldAtStep calc (Efield detProp) edep) = None /\
  CalcIonAndScint calc detProp edep = None.
Proof.
  intros Hbirks Hsce Hfield.
  assert (HE : EFieldAtStep calc (Efield detProp) edep = 0).
  { unfold EFieldAtStep. rewrite Hsce. exact Hfield. }
  assert (Hdiv : dEdxAtStep (Energy edep) (to_float (StepLength edep)) * fRecombk calc
                   /? EFieldAtStep calc (Efield detProp) edep = None).
  { apply div_by_zero. exact HE. }
  assert (Hmodel : ModelRecomb calc (to_float (StepLength edep))
                     (dEdxAtStep (Energy edep) (to_float (StepLength edep)))
                     (EFieldAtStep calc (Efield detProp) edep) = None).
  { unfold ModelRecomb. rewrite Hbirks, Hdiv. reflexivity. }
  repeat split; try assumption.
  apply CalcIonAndScint_undefined, CorrectedRecomb_undefined. exact Hmodel.
Qed.

Lemma birks_zero_field_witness :
  CalcIonAndScint (sample_calc false false 0 1) (sample_detProp 0)
    (deposit 2 1 13) = None.
Proof.
  exact (proj2 (proj2 (proj2
           (birks_zero_field (sample_calc false false 0 1) (sample_detProp 0)
              (deposit 2 1 13) eq_refl eq_refl eq_refl)))).
Defined.

(** ** C5 and C6: the LArQL field correction *)

Lemma FieldCorrection_log_defined (calc : ISCalcCorrelated) (EF dEdx : R) :
  1 <= dEdx ->
  FieldCorrection calc EF dEdx =
    (q <- (- EF) /? (fLarqlAlpha calc * ln dEdx + fLarqlBeta calc) ;;
     ret (exp q)).
Proof.
  intros Hd. unfold FieldCorrection.
  rewrite log_defined by lra. reflexivity.
Qed.

Lemma ln_floor (d : R) : 1 <= d -> 0 <= ln d.
Proof.
  intros [Hlt | <-].
  - rewrite <- ln_1. left. apply ln_increasing; [lra | exact Hlt].
  - rewrite ln_1. apply Rle_refl.
Qed.

(** C5.  When the correction is on and a value d >= 1 solves
    alpha * ln(d) + beta = 0, [FieldCorrection] at d has a zero divisor
    in every field, every deposit whose dE/dx is d gets no result, and
    such a deposit exists: energy d over a step of length 1. *)
Theorem field_correction_zero_denominator (calc : ISCalcCorrelated) (d : R) :
  fUseModLarqlRecomb calc = true ->
  1 <= d ->
  fLarqlAlpha calc * ln d + fLarqlBeta calc = 0 ->
  (forall EF : R, FieldCorrection calc EF d = None) /\
  (forall (detProp : DetectorPropertiesData) (edep : SimEnergyDeposit),
     dEdxAtStep (Energy edep) (to_float (StepLength edep)) = d ->
     CalcIonAndScint calc detProp edep = None) /\
  (forall (mid : geo.Point_t) (pdg : Z),
     dEdxAtStep (Energy (mkSimEnergyDeposit d 1 mid pdg))
       (to_float (StepLength (mkSimEnergyDeposit d 1 mid pdg))) = d).
Proof.
  intros Hon Hd Hzero.
  assert (Hfc : forall EF : R, FieldCorrection calc EF d = None).
  { intros EF. rewrite FieldCorrection_log_defined by exact Hd.
    rewrite (div_by_zero _ _ Hzero). reflexivity. }
  split; [exact Hfc |]. split.
  - intros detProp edep Hdedx.
    apply CalcIonAndScint_undefined. rewrite Hdedx.
    unfold CorrectedRecomb. rewrite Hon, Hfc.
    destruct (ModelRecomb calc (to_float (StepLength edep)) d
                (EFieldAtStep calc (Efield detProp) edep)); simpl;
      [| reflexivity].
    destruct (EscapingEFraction calc d); reflexivity.
  - intros mid pdg. cbn [Energy StepLength]. rewrite to_float_1.
    rewrite dEdxAtStep_above by lra. lra.
Qed.

Lemma field_correction_zero_denominator_witness :
  CalcIonAndScint (sample_calc true true 1 0) (sample_detProp 0.5)
    (deposit 1 1 11) = None.
Proof.
  refine (proj1 (proj2
            (field_correction_zero_denominator (sample_calc true true 1 0) 1
               eq_refl (Rle_refl 1) _))
            (sample_detProp 0.5) (deposit 1 1 11) _).
  - cbn [fLarqlAlpha fLarqlBeta sample_calc]. rewrite ln_1. lra.
  - unfold deposit. cbn [Energy StepLength]. rewrite to_float_1.
    apply dEdxAtStep_below; lra.
Defined.

(** C6.  For every calculator, ambient field and deposit, whatever the
    energy and the step length, the dE/dx that [CalcIonAndScint] hands
    to [EscapingEFraction] and [FieldCorrection] is at least 1, so its
    logarithm is defined and not negative. *)
Theorem larql_dEdx_floor (calc : ISCalcCorrelated)
    (detProp : DetectorPropertiesData) (edep : SimEnergyDeposit) :
  let ds := to_float (StepLength edep) in
  let dEdx := dEdxAtStep (Energy edep) ds in
  let EFieldStep := EFieldAtStep calc (Efield detProp) edep in
  1 <= dEdx /\
  0 <= ln dEdx /\
  log dEdx = Some (ln dEdx) /\
  CorrectedRecomb calc ds dEdx EFieldStep =
    (recomb <- ModelRecomb calc ds dEdx EFieldStep ;;
     if fUseModLarqlRecomb calc then
       esc <- EscapingEFraction calc dEdx ;;
       q <- (- EFieldStep) /? (fLarqlAlpha calc * ln dEdx + fLarqlBeta calc) ;;
       ret (recomb + esc * exp q)
     else ret recomb).
Proof.
  intros ds dEdx EFieldStep.
  assert (Hfloor : 1 <= dEdx) by apply dEdxAtStep_floor.
  split; [exact Hfloor |].
  split; [apply ln_floor; exact Hfloor |].
  split; [apply log_defined; lra |].
  unfold CorrectedRecomb.
  destruct (ModelRecomb calc ds dEdx EFieldStep) as [recomb |]; simpl;
    [| reflexivity].
  destruct (fUseModLarqlRecomb calc); [| reflexivity].
  rewrite FieldCorrection_log_defined by exact Hfloor.
  destruct (EscapingEFraction calc dEdx) as [esc |]; simpl; [| reflexivity].
  destruct (- EFieldStep /? (fLarqlAlpha calc * ln dEdx + fLarqlBeta calc));
    reflexivity.
Qed.

(** ** C7: the effective local field *)

(** C7.  The effective field is the ambient field itself when the field
    distortion is off, and otherwise the ambient field times the
    Euclidean norm of (1 + dx, dy, dz), with (dx, dy, dz) the offsets the
    provider gives for the midpoint of the deposit; it is the field
    [CalcIonAndScint] takes the survival fraction at. *)
Theorem EFieldAtStep_norm (calc : ISCalcCorrelated)
    (detProp : DetectorPropertiesData) (edep : SimEnergyDeposit) :
  EFieldAtStep calc (Efield detProp) edep =
    (if EnableSimEfieldSCE (fSCE calc) then
       let off := GetEfieldOffsets (fSCE calc) (MidPoint edep) in
       Efield detProp
       * sqrt (Rsqr (1 + geo.X off) + Rsqr (geo.Y off) + Rsqr (geo.Z off))
     else Efield detProp) /\
  CalcIonAndScint calc detProp edep =
    (Nq <- Energy edep /? fWph calc ;;
     recomb <- CorrectedRecomb calc (to_float (StepLength edep))
                 (dEdxAtStep (Energy edep) (to_float (StepLength edep)))
                 (if EnableSimEfieldSCE (fSCE calc) then
                    let off := GetEfieldOffsets (fSCE calc) (MidPoint edep) in
                    Efield detProp
                    * sqrt (Rsqr (1 + geo.X off) + Rsqr (geo.Y off)
                            + Rsqr (geo.Z off))
                  else Efield detProp) ;;
     t <- Energy edep /? fWion calc ;;
     ret {| energy_deposit := Energy edep;
            numElectrons := t * recomb;
            numPhotons := (Nq - t * recomb) * fScintPreScale calc;
            scintillationYieldRatio := GetScintYieldRatio calc edep |}).
Proof.
  assert (HE : EFieldAtStep calc (Efield detProp) edep =
               (if EnableSimEfieldSCE (fSCE calc) then
                  let off := GetEfieldOffsets (fSCE calc) (MidPoint edep) in
                  Efield detProp
                  * sqrt (Rsqr (1 + geo.X off) + Rsqr (geo.Y off)
                          + Rsqr (geo.Z off))
                else Efield detProp)).
  { unfold EFieldAtStep, hypot, Rsqr.
    destruct (EnableSimEfieldSCE (fSCE calc)); reflexivity. }
  split; [exact HE |].
  unfold CalcIonAndScint. rewrite HE. reflexivity.
Qed.

(** ** C8: the yield-ratio lookup *)

Lemma GetScintYieldRatio_default (calc : ISCalcCorrelated) (edep : SimEnergyDeposit) :
  ScintByParticleType (fLArProp calc) = true ->
  heavy_code (PdgCode edep) = false ->
  GetScintYieldRatio calc edep = ElectronScintYieldRatio (fLArProp calc).
Proof.
  intros Hon. unfold GetScintYieldRatio. rewrite Hon. cbn [negb].
  destruct (PdgCode edep) as [| p | p]; [reflexivity | |];
    unfold heavy_code; cbn [Z.eqb orb].
  all: repeat match goal with
       | |- _ = false -> ?x = ?x => reflexivity
       | |- _ = false ->
            match ?q with xI _ => _ | xO _ => _ | xH => _ end = _ =>
           destruct q; cbn [Pos.eqb orb];
           try (intros; reflexivity); try discriminate
       end.
Qed.

Lemma heavy_code_false (code : Z) :
  code <> 2212%Z -> code <> 13%Z -> code <> (-13)%Z -> code <> 211%Z ->
  code <> (-211)%Z -> code <> 321%Z -> code <> (-321)%Z ->
  code <> 1000020040%Z ->
  heavy_code code = false.
Proof.
  intros H1 H2 H3 H4 H5 H6 H7 H8. unfold heavy_code.
  apply Z.eqb_neq in H1, H2, H3, H4, H5, H6, H7, H8.
  rewrite H1, H2, H3, H4, H5, H6, H7, H8. reflexivity.
Qed.

(** C8.  The lookup returns a ratio for every particle code and either
    setting of the toggle.  With the toggle off it is the global ratio.
    With the toggle on it is the proton ratio for 2212, the muon ratio
    for 13 and -13, the pion ratio for 211 and -211, the kaon ratio for
    321 and -321, the alpha ratio for 1000020040, and the electron ratio
    for 11, -11, 22 and every other code. *)
Theorem GetScintYieldRatio_dispatch (calc : ISCalcCorrelated)
    (edep : SimEnergyDeposit) :
  let code := PdgCode edep in
  let lar := fLArProp calc in
  (ScintByParticleType lar = false ->
     GetScintYieldRatio calc edep = ScintYieldRatio lar) /\
  (ScintByParticleType lar = true ->
     (code = 2212%Z ->
        GetScintYieldRatio calc edep = ProtonScintYieldRatio lar) /\
     (code = 13%Z \/ code = (-13)%Z ->
        GetScintYieldRatio calc edep = MuonScintYieldRatio lar) /\
     (code = 211%Z \/ code = (-211)%Z ->
        GetScintYieldRatio calc edep = PionScintYieldRatio lar) /\
     (code = 321%Z \/ code = (-321)%Z ->
        GetScintYieldRatio calc edep = KaonScintYieldRatio lar) /\
     (code = 1000020040%Z ->
        GetScintYieldRatio calc edep = AlphaScintYieldRatio lar) /\
     (code = 11%Z \/ code = (-11)%Z \/ code = 22%Z ->
        GetScintYieldRatio calc edep = ElectronScintYieldRatio lar) /\
     (code <> 2212%Z -> code <> 13%Z -> code <> (-13)%Z -> code <> 211%Z ->
      code <> (-211)%Z -> code <> 321%Z -> code <> (-321)%Z ->
      code <> 1000020040%Z ->
        GetScintYieldRatio calc edep = ElectronScintYieldRatio lar)).
Proof.
  intros code lar. subst code lar. split.
  - intros Hoff. unfold GetScintYieldRatio. rewrite Hoff. reflexivity.
  - intros Hon.
    repeat split.
    + intros H. unfold GetScintYieldRatio. rewrite Hon, H. reflexivity.
    + intros [H | H]; unfold GetScintYieldRatio; rewrite Hon, H; reflexivity.
    + intros [H | H]; unfold GetScintYieldRatio; rewrite Hon, H; reflexivity.
    + intros [H | H]; unfold GetScintYieldRatio; rewrite Hon, H; reflexivity.
    + intros H. unfold GetScintYieldRatio. rewrite Hon, H. reflexivity.
    + intros [H | [H | H]]; unfold GetScintYieldRatio; rewrite Hon, H;
        reflexivity.
    + intros H1 H2 H3 H4 H5 H6 H7 H8.
      apply GetScintYieldRatio_default; [exact Hon |].
      apply heavy_code_false; assumption.
Qed.

Lemma GetScintYieldRatio_dispatch_witness :
  GetScintYieldRatio (sample_calc true false 0 1) (deposit 1 1 999999) = 0.27 /\
  GetScintYieldRatio (sample_calc true false 0 1) (deposit 1 1 2212) = 0.29.
Proof.
  pose proof (proj2 (GetScintYieldRatio_dispatch (sample_calc true false 0 1)
                       (deposit 1 1 999999)) eq_refl) as Hother.
  pose proof (proj2 (GetScintYieldRatio_dispatch (sample_calc true false 0 1)
                       (deposit 1 1 2212)) eq_refl) as Hproton.
  split.
  - apply Hother; discriminate.
  - apply Hproton. reflexivity.
Defined.

(** ** C9: a negative step length *)

(** C9.  A deposit with a negative step length gets the result of the
    same deposit with step length 0: both pass the [ds <= 0.0] test, so
    dE/dx is 0 and then 1, and neither passes the [ds > 0] test of the
    Modified-Box branch. *)
Theorem negative_step_as_zero (calc : ISCalcCorrelated)
    (detProp : DetectorPropertiesData) (edep : SimEnergyDeposit) :
  StepLength edep < 0 ->
  dEdxAtStep (Energy edep) (to_float (StepLength edep)) = 1 /\
  dEdxAtStep (Energy edep) 0 = 1 /\
  (fUseModBoxRecomb calc = true ->
   forall dEdx EFieldStep : R,
     ModelRecomb calc (to_float (StepLength edep)) dEdx EFieldStep = Some 0) /\
  CalcIonAndScint calc detProp edep =
    CalcIonAndScint calc detProp (with_StepLength 0 edep).
Proof.
  intros Hneg.
  assert (Hds : to_float (StepLength edep) <= 0)
    by (apply to_float_nonpos; lra).
  assert (D1 : dEdxAtStep (Energy edep) (to_float (StepLength edep)) = 1)
    by (apply dEdxAtStep_no_step; exact Hds).
  assert (D0 : dEdxAtStep (Energy edep) 0 = 1)
    by (apply dEdxAtStep_no_step; lra).
  split; [exact D1 |]. split; [exact D0 |]. split.
  - intros Hbox dEdx EFieldStep.
    apply ModelRecomb_modbox_no_step; [exact Hbox | exact Hds].
  - apply CalcIonAndScint_ext; try reflexivity.
    + cbn [StepLength with_StepLength]. rewrite to_float_0.
      split; intros H; lra.
    + cbn [Energy StepLength with_StepLength]. rewrite to_float_0, D1, D0.
      reflexivity.
Qed.

Lemma negative_step_as_zero_witness :
  CalcIonAndScint (sample_calc true false 0 1) (sample_detProp 0.5)
    (deposit 5 (-1) 11) =
  CalcIonAndScint (sample_calc true false 0 1) (sample_detProp 0.5)
    (deposit 5 0 11).
Proof.
  refine (proj2 (proj2 (proj2
            (negative_step_as_zero (sample_calc true false 0 1)
               (sample_detProp 0.5) (deposit 5 (-1) 11) _)))).
  unfold deposit. cbn [StepLength]. lra.
Defined.

(** ** C10: the particle code and the quanta *)

(** C10.  Two deposits with the same energy, step length and midpoint
    get, in the same ambient field, results with the same energy,
    electron count and photon count (and one is returned exactly when the
    other is), whatever their particle codes. *)
Theorem pdg_noninterference (calc : ISCalcCorrelated)
    (detProp : DetectorPropertiesData) (e1 e2 : SimEnergyDeposit) :
  Energy e1 = Energy e2 ->
  StepLength e1 = StepLength e2 ->
  MidPoint e1 = MidPoint e2 ->
  option_map quanta (CalcIonAndScint calc detProp e1) =
  option_map quanta (CalcIonAndScint calc detProp e2).
Proof.
  intros He Hs Hm.
  unfold CalcIonAndScint, EFieldAtStep. rewrite He, Hs, Hm.
  destruct (Energy e2 /? fWph calc) as [Nq |]; simpl; [| reflexivity].
  match goal with
  | |- context [CorrectedRecomb ?c ?s ?d ?f] =>
      destruct (CorrectedRecomb c s d f) as [recomb |]; simpl; [| reflexivity]
  end.
  destruct (Energy e2 /? fWion calc) as [t |]; reflexivity.
Qed.

Lemma pdg_noninterference_witness :
  option_map quanta
    (CalcIonAndScint (sample_calc false false 0 1) (sample_detProp 0.5)
       (deposit 2 1 13)) =
  option_map quanta
    (CalcIonAndScint (sample_calc false false 0 1) (sample_detProp 0.5)
       (deposit 2 1 2212)).
Proof.
  apply (pdg_noninterference (sample_calc false false 0 1) (sample_detProp 0.5)
           (deposit 2 1 13) (deposit 2 1 2212));
    reflexivity.
Defined.

(** * Further properties of the calculator *)

(** ** The constructor *)

Lemma new_Wion_value (detProp0 : DetectorPropertiesData)
    (params : LArG4Parameters) (sce : SpaceCharge) (larProp : LArProperties)
    (calc : ISCalcCorrelated) :
  ISCalcCorrelated_new detProp0 params sce larProp = Some calc ->
  fWion calc = 1000 / GeVToElectrons params.
Proof.
  intros Hnew. destruct (new_inv _ _ _ _ _ Hnew) as (_ & Hg & E).
  rewrite E. cbn [fWion]. field. exact Hg.
Qed.

(** X2.  A built calculator holds [Recombk] and [ModBoxB] divided by the
    density, and the work function 1000 / GeVToElectrons (MeV per
    electron): the electron count of every result is
    energy * GeVToElectrons / 1000 * recomb. *)
Theorem new_normalisation (detProp0 : DetectorPropertiesData)
    (params : LArG4Parameters) (sce : SpaceCharge) (larProp : LArProperties)
    (calc : ISCalcCorrelated) :
  ISCalcCorrelated_new detProp0 params sce larProp = Some calc ->
  fRecombk calc * Density detProp0 (Temperature detProp0) = Recombk params /\
  fModBoxB calc * Density detProp0 (Temperature detProp0) = ModBoxB params /\
  fWion calc * GeVToElectrons params = 1000 /\
  (forall (detProp : DetectorPropertiesData) (edep : SimEnergyDeposit)
          (r : ISCalcData),
     CalcIonAndScint calc detProp edep = Some r ->
     exists recomb : R,
       CorrectedRecomb calc (to_float (StepLength edep))
         (dEdxAtStep (Energy edep) (to_float (StepLength edep)))
         (EFieldAtStep calc (Efield detProp) edep) = Some recomb /\
       numElectrons r = Energy edep * GeVToElectrons params / 1000 * recomb).
Proof.
  intros Hnew.
  destruct (new_inv _ _ _ _ _ Hnew) as (Hd & Hg & E).
  assert (Hk : fRecombk calc * Density detProp0 (Temperature detProp0)
               = Recombk params).
  { rewrite E. cbn [fRecombk]. field. exact Hd. }
  assert (Hb : fModBoxB calc * Density detProp0 (Temperature detProp0)
               = ModBoxB params).
  { rewrite E. cbn [fModBoxB]. field. exact Hd. }
  pose proof (new_Wion_value _ _ _ _ _ Hnew) as Hw.
  split; [exact Hk |]. split; [exact Hb |]. split.
  - rewrite Hw. field. exact Hg.
  - intros detProp edep r Hr.
    apply CalcIonAndScint_inv in Hr.
    destruct Hr as (recomb & Hrecomb & _ & _ & ->).
    exists recomb. split; [exact Hrecomb |].
    cbn [numElectrons]. rewrite Hw. field. exact Hg.
Qed.

Lemma new_normalisation_witness :
  fWion (sample_calc true false 0 1) * GeVToElectrons (sample_params true false 0 1)
  = 1000.
Proof.
  exact (proj1 (proj2 (proj2
           (new_normalisation (sample_detProp 0.5) (sample_params true false 0 1)
              no_sce sample_larProp (sample_calc true false 0 1)
              (sample_calc_built true false 0 1 0.5))))).
Defined.

(** ** The Birks-style formula *)

Lemma birks_value (calc : ISCalcCorrelated) (ds dEdx EFieldStep : R) :
  fUseModBoxRecomb calc = false ->
  EFieldStep <> 0 ->
  1 + dEdx * fRecombk calc / EFieldStep <> 0 ->
  ModelRecomb calc ds dEdx EFieldStep =
    Some (fRecombA calc / (1 + dEdx * fRecombk calc / EFieldStep)).
Proof.
  intros Hbirks HE Hden. unfold ModelRecomb. rewrite Hbirks.
  rewrite (div_defined _ _ HE). cbn [bind].
  apply div_defined. exact Hden.
Qed.

Lemma birks_denominator (dEdx k EFieldStep : R) :
  0 < EFieldStep -> 0 <= k -> 0 <= dEdx ->
  1 <= 1 + dEdx * k / EFieldStep.
Proof.
  intros HE Hk Hd.
  assert (0 <= dEdx * k / EFieldStep).
  { apply Rmult_le_pos; [apply Rmult_le_pos; assumption |].
    left. apply Rinv_0_lt_compat. exact HE. }
  lra.
Qed.

Lemma fraction_range (A den : R) : 0 <= A -> 1 <= den -> 0 <= A / den <= A.
Proof.
  intros HA Hden.
  assert (Hinv : 0 < / den <= 1).
  { split.
    - apply Rinv_0_lt_compat. lra.
    - rewrite <- Rinv_1. apply Rinv_le_contravar; lra. }
  unfold Rdiv. split.
  - apply Rmult_le_pos; lra.
  - rewrite <- (Rmult_1_r A) at 2. apply Rmult_le_compat_l; lra.
Qed.

(** X3.  Birks-style branch: in a positive field, with k >= 0, A >= 0 and
    dE/dx >= 0, the survival fraction is defined and lies between 0 and A. *)
Theorem birks_recomb_bounds (calc : ISCalcCorrelated) (ds dEdx EFieldStep : R) :
  fUseModBoxRecomb calc = false ->
  0 < EFieldStep ->
  0 <= fRecombk calc ->
  0 <= fRecombA calc ->
  0 <= dEdx ->
  exists recomb : R,
    ModelRecomb calc ds dEdx EFieldStep = Some recomb /\
    0 <= recomb <= fRecombA calc.
Proof.
  intros Hbirks HE Hk HA Hd.
  pose proof (birks_denominator dEdx (fRecombk calc) EFieldStep HE Hk Hd) as Hden.
  exists (fRecombA calc / (1 + dEdx * fRecombk calc / EFieldStep)).
  split.
  - apply birks_value; [exact Hbirks | lra | lra].
  - apply fraction_range; assumption.
Qed.

Lemma birks_recomb_bounds_witness :
  exists recomb : R,
    ModelRecomb (sample_calc false false 0 1) 1 2 0.5 = Some recomb /\
    0 <= recomb <= 0.8.
Proof.
  apply (birks_recomb_bounds (sample_calc false false 0 1) 1 2 0.5);
    cbn [fUseModBoxRecomb fRecombk fRecombA sample_calc];
    first [reflexivity | lra].
Defined.

(** X4.  Birks-style model without the LArQL correction: in a positive
    effective field, with k >= 0, A >= 0, positive work functions with
    A * W_ph <= W_ion, a non-negative pre-scale and a non-negative energy,
    a result is returned and neither its electron count nor its photon
    count is negative. *)
Theorem birks_quanta_nonneg (calc : ISCalcCorrelated)
    (detProp : DetectorPropertiesData) (edep : SimEnergyDeposit) :
  fUseModBoxRecomb calc = false ->
  fUseModLarqlRecomb calc = false ->
  0 < EFieldAtStep calc (Efield detProp) edep ->
  0 <= fRecombk calc ->
  0 <= fRecombA calc ->
  0 < fWph calc ->
  0 < fWion calc ->
  fRecombA calc * fWph calc <= fWion calc ->
  0 <= fScintPreScale calc ->
  0 <= Energy edep ->
  exists r : ISCalcData,
    CalcIonAndScint calc detProp edep = Some r /\
    0 <= numElectrons r /\
    0 <= numPhotons r.
Proof.
  intros Hbirks Hoff HE Hk HA Hph Hion Hw Hpre Hen.
  pose proof (dEdxAtStep_floor (Energy edep) (to_float (StepLength edep))) as Hfloor.
  set (dEdx := dEdxAtStep (Energy edep) (to_float (StepLength edep))) in *.
  set (EFieldStep := EFieldAtStep calc (Efield detProp) edep) in *.
  assert (Hd : 0 <= dEdx) by lra.
  pose proof (birks_denominator dEdx (fRecombk calc) EFieldStep HE Hk Hd) as Hden.
  pose proof (fraction_range (fRecombA calc) _ HA Hden) as [Hr0 HrA].
  set (recomb := fRecombA calc / (1 + dEdx * fRecombk calc / EFieldStep)) in *.
  eexists. split.
  - apply (CalcIonAndScint_defined calc detProp edep recomb); [lra | lra |].
    rewrite CorrectedRecomb_no_larql by exact Hoff.
    apply birks_value; [exact Hbirks | |]; fold dEdx EFieldStep; lra.
  - cbn [numElectrons numPhotons].
    assert (Hiw : 0 < / fWion calc) by (apply Rinv_0_lt_compat; exact Hion).
    assert (Hip : 0 < / fWph calc) by (apply Rinv_0_lt_compat; exact Hph).
    assert (Hq : 0 <= Energy edep / fWion calc)
      by (unfold Rdiv; apply Rmult_le_pos; lra).
    assert (Hel : 0 <= Energy edep / fWion calc * recomb)
      by (apply Rmult_le_pos; assumption).
    split; [exact Hel |].
    apply Rmult_le_pos; [| exact Hpre].
    assert (Hrw : recomb / fWion calc <= / fWph calc).
    { apply (Rmult_le_reg_r (fWion calc * fWph calc));
        [apply Rmult_lt_0_compat; assumption |].
      replace (recomb / fWion calc * (fWion calc * fWph calc))
        with (recomb * fWph calc) by (field; lra).
      replace (/ fWph calc * (fWion calc * fWph calc))
        with (fWion calc) by (field; lra).
      apply Rle_trans with (fRecombA calc * fWph calc); [| exact Hw].
      apply Rmult_le_compat_r; lra. }
    assert (Hle : Energy edep * (recomb / fWion calc)
                  <= Energy edep * / fWph calc)
      by (apply Rmult_le_compat_l; assumption).
    unfold Rdiv in *. lra.
Qed.

Lemma birks_quanta_nonneg_witness :
  exists r : ISCalcData,
    CalcIonAndScint birks_calc (sample_detProp 0.5) (deposit 2 1 13) = Some r /\
    0 <= numElectrons r /\
    0 <= numPhotons r.
Proof.
  apply (birks_quanta_nonneg birks_calc (sample_detProp 0.5) (deposit 2 1 13));
    unfold EFieldAtStep, deposit;
    cbn [fUseModBoxRecomb fUseModLarqlRecomb fRecombk fRecombA fWph fWion
         fScintPreScale birks_calc fSCE EnableSimEfieldSCE no_sce negb
         Efield sample_detProp Energy];
    first [reflexivity | lra].
Defined.

(** X5.  Birks-style branch: the survival fraction does not decrease when
    dE/dx goes down or the (positive) field goes up. *)
Theorem birks_recomb_monotone (calc : ISCalcCorrelated)
    (ds1 ds2 d1 d2 E1 E2 : R) :
  fUseModBoxRecomb calc = false ->
  0 <= fRecombk calc ->
  0 <= fRecombA calc ->
  0 <= d2 <= d1 ->
  0 < E1 <= E2 ->
  exists r1 r2 : R,
    ModelRecomb calc ds1 d1 E1 = Some r1 /\
    ModelRecomb calc ds2 d2 E2 = Some r2 /\
    r1 <= r2.
Proof.
  intros Hbirks Hk HA [Hd2 Hd] [HE1 HE].
  assert (Hd1 : 0 <= d1) by lra.
  assert (HE2 : 0 < E2) by lra.
  pose proof (birks_denominator d1 (fRecombk calc) E1 HE1 Hk Hd1) as Hden1.
  pose proof (birks_denominator d2 (fRecombk calc) E2 HE2 Hk Hd2) as Hden2.
  exists (fRecombA calc / (1 + d1 * fRecombk calc / E1)),
         (fRecombA calc / (1 + d2 * fRecombk calc / E2)).
  split; [apply birks_value; [exact Hbirks | lra | lra] |].
  split; [apply birks_value; [exact Hbirks | lra | lra] |].
  assert (Hq : d2 * fRecombk calc / E2 <= d1 * fRecombk calc / E1).
  { unfold Rdiv. apply Rmult_le_compat.
    - apply Rmult_le_pos; assumption.
    - left. apply Rinv_0_lt_compat. exact HE2.
    - apply Rmult_le_compat_r; assumption.
    - apply Rinv_le_contravar; assumption. }
  unfold Rdiv at 1 3. apply Rmult_le_compat_l; [exact HA |].
  apply Rinv_le_contravar; lra.
Qed.

Lemma birks_recomb_monotone_witness :
  exists r1 r2 : R,
    ModelRecomb (sample_calc false false 0 1) 1 4 0.3 = Some r1 /\
    ModelRecomb (sample_calc false false 0 1) 1 2 0.5 = Some r2 /\
    r1 <= r2.
Proof.
  apply (birks_recomb_monotone (sample_calc false false 0 1) 1 1 4 2 0.3 0.5);
    cbn [fUseModBoxRecomb fRecombk fRecombA sample_calc];
    first [reflexivity | lra].
Defined.

(** X6.  Birks-style branch, in a field that is not 0: the division by
    1 + dEdx * k / E has divisor zero exactly when the field equals
    - dEdx * k, and the survival fraction is a real number for every
    other field. *)
Theorem birks_undefined_iff (calc : ISCalcCorrelated) (ds dEdx EFieldStep : R) :
  fUseModBoxRecomb calc = false ->
  EFieldStep <> 0 ->
  (1 + dEdx * fRecombk calc / EFieldStep = 0 <->
   EFieldStep + dEdx * fRecombk calc = 0) /\
  (ModelRecomb calc ds dEdx EFieldStep = None <->
   EFieldStep + dEdx * fRecombk calc = 0) /\
  (EFieldStep + dEdx * fRecombk calc <> 0 ->
   ModelRecomb calc ds dEdx EFieldStep =
     Some (fRecombA calc / (1 + dEdx * fRecombk calc / EFieldStep))).
Proof.
  intros Hbirks HE.
  assert (Hsum : 1 + dEdx * fRecombk calc / EFieldStep
                 = (EFieldStep + dEdx * fRecombk calc) / EFieldStep)
    by (field; exact HE).
  assert (Hden : 1 + dEdx * fRecombk calc / EFieldStep = 0 <->
                 EFieldStep + dEdx * fRecombk calc = 0).
  { rewrite Hsum. split.
    - intros H0. apply (Rmult_eq_compat_r EFieldStep) in H0.
      unfold Rdiv in H0.
      rewrite Rmult_assoc, Rinv_l, Rmult_1_r, Rmult_0_l in H0 by exact HE.
      exact H0.
    - intros ->. unfold Rdiv. apply Rmult_0_l. }
  split; [exact Hden |].
  destruct (Req_dec_T (EFieldStep + dEdx * fRecombk calc) 0) as [Hz | Hz].
  - split; [| intros N; contradiction].
    split; [intros _; exact Hz |].
    intros _. unfold ModelRecomb. rewrite Hbirks.
    rewrite (div_defined _ _ HE). cbn [bind].
    apply div_by_zero. apply Hden. exact Hz.
  - assert (Hval : ModelRecomb calc ds dEdx EFieldStep =
                   Some (fRecombA calc / (1 + dEdx * fRecombk calc / EFieldStep))).
    { apply birks_value; [exact Hbirks | exact HE |].
      intros H0. apply Hz. apply Hden. exact H0. }
    split; [| intros _; exact Hval].
    split.
    + intros Hnone. rewrite Hval in Hnone. discriminate Hnone.
    + intros H. contradiction.
Qed.

Lemma birks_undefined_iff_witness :
  ModelRecomb (sample_calc false false 0 1) 1 2 (- (0.0972 / 1.4)) = None.
Proof.
  apply (proj2 (proj1 (proj2
           (birks_undefined_iff (sample_calc false false 0 1) 1 2
              (- (0.0972 / 1.4)) eq_refl ltac:(lra)))));
    cbn [fRecombk sample_calc]; lra.
Defined.

(** ** The Modified-Box formula *)

Lemma modbox_value (calc : ISCalcCorrelated) (ds dEdx EFieldStep : R) :
  fUseModBoxRecomb calc = true ->
  0 < ds ->
  EFieldStep <> 0 ->
  fModBoxB calc * dEdx <> 0 ->
  0 < fModBoxA calc + fModBoxB calc * dEdx / EFieldStep ->
  ModelRecomb calc ds dEdx EFieldStep =
    Some (ln (fModBoxA calc + fModBoxB calc * dEdx / EFieldStep)
          / (fModBoxB calc * dEdx / EFieldStep)).
Proof.
  intros Hbox Hds HE HB Hlog. unfold ModelRecomb. rewrite Hbox.
  destruct (Rgt_dec ds 0) as [_ | N]; [| exfalso; apply N; exact Hds].
  rewrite (div_defined _ _ HE). cbn [bind].
  rewrite (log_defined _ Hlog). cbn [bind].
  apply div_defined.
  unfold Rdiv. apply Rmult_integral_contrapositive_currified;
    [exact HB | apply Rinv_neq_0_compat; exact HE].
Qed.

(** X7.  Modified-Box branch, positive step: the survival fraction is
    defined exactly when the field is not 0, B * dEdx is not 0 (so Xi is
    not 0) and A + Xi is positive (so its logarithm exists). *)
Theorem modbox_defined_iff (calc : ISCalcCorrelated) (ds dEdx EFieldStep : R) :
  fUseModBoxRecomb calc = true ->
  0 < ds ->
  ((exists recomb : R, ModelRecomb calc ds dEdx EFieldStep = Some recomb) <->
   EFieldStep <> 0 /\
   fModBoxB calc * dEdx <> 0 /\
   0 < fModBoxA calc + fModBoxB calc * dEdx / EFieldStep).
Proof.
  intros Hbox Hds. split.
  - intros [recomb H]. unfold ModelRecomb in H. rewrite Hbox in H.
    destruct (Rgt_dec ds 0) as [_ | N]; [| exfalso; apply N; exact Hds].
    apply bind_inv in H. destruct H as (Xi & HXi & H).
    apply bind_inv in H. destruct H as (l & Hl & H).
    apply div_inv in HXi. destruct HXi as [HE ->].
    apply div_inv in H. destruct H as [HXi _].
    unfold log in Hl.
    destruct (Rlt_dec 0 (fModBoxA calc + fModBoxB calc * dEdx / EFieldStep))
      as [Hpos | _]; [| discriminate Hl].
    split; [exact HE |]. split; [| exact Hpos].
    intros HB. apply HXi. rewrite HB. unfold Rdiv. apply Rmult_0_l.
  - intros (HE & HB & Hlog). eexists.
    apply modbox_value; assumption.
Qed.

Lemma modbox_defined_iff_witness :
  exists recomb : R, ModelRecomb (sample_calc true false 0 1) 1 2 0.5 = Some recomb.
Proof.
  apply (proj2 (modbox_defined_iff (sample_calc true false 0 1) 1 2 0.5
                  eq_refl Rlt_0_1));
    cbn [fModBoxA fModBoxB sample_calc]; repeat split; lra.
Defined.

Lemma ln_negative_iff (x : R) : 0 < x -> (ln x < 0 <-> x < 1).
Proof.
  intros Hx. rewrite <- ln_1. split.
  - apply ln_lt_inv; lra.
  - apply ln_increasing. exact Hx.
Qed.

Lemma ln_below_line (x : R) : 0 < x -> ln x <= x - 1.
Proof.
  intros Hx. pose proof (exp_ineq1_le (ln x)) as H.
  rewrite (exp_ln x Hx) in H. lra.
Qed.

(** X8.  Modified-Box branch, positive step, positive field and Xi > 0:
    the survival fraction is negative exactly when A + Xi < 1, and it is
    at most 1 when A <= 1. *)
Theorem modbox_recomb_sign (calc : ISCalcCorrelated) (ds dEdx EFieldStep : R) :
  fUseModBoxRecomb calc = true ->
  0 < ds ->
  0 < EFieldStep ->
  0 < fModBoxB calc * dEdx ->
  0 < fModBoxA calc + fModBoxB calc * dEdx / EFieldStep ->
  exists recomb : R,
    ModelRecomb calc ds dEdx EFieldStep = Some recomb /\
    (recomb < 0 <-> fModBoxA calc + fModBoxB calc * dEdx / EFieldStep < 1) /\
    (fModBoxA calc <= 1 -> recomb <= 1).
Proof.
  intros Hbox Hds HE HB Hlog.
  set (Xi := fModBoxB calc * dEdx / EFieldStep) in *.
  assert (HXi : 0 < Xi).
  { unfold Xi, Rdiv. apply Rmult_lt_0_compat;
      [exact HB | apply Rinv_0_lt_compat; exact HE]. }
  exists (ln (fModBoxA calc + Xi) / Xi).
  split; [apply modbox_value; try assumption; lra |].
  assert (Hinv : 0 < / Xi) by (apply Rinv_0_lt_compat; exact HXi).
  split.
  - rewrite <- (ln_negative_iff _ Hlog). unfold Rdiv. split; intros H.
    + apply (Rmult_lt_reg_r (/ Xi)); [exact Hinv |].
      rewrite Rmult_0_l. exact H.
    + rewrite <- (Rmult_0_l (/ Xi)).
      apply Rmult_lt_compat_r; assumption.
  - intros HA. pose proof (ln_below_line _ Hlog) as Hln.
    apply (Rmult_le_reg_r Xi); [exact HXi |].
    unfold Rdiv. rewrite Rmult_assoc, Rinv_l, Rmult_1_r, Rmult_1_l by lra.
    lra.
Qed.

Lemma modbox_recomb_sign_witness :
  exists recomb : R,
    ModelRecomb (sample_calc true false 0 1) 1 2 5 = Some recomb /\
    (recomb < 0 <-> 0.93 + 0.212 / 1.4 * 2 / 5 < 1) /\
    (0.93 <= 1 -> recomb <= 1).
Proof.
  apply (modbox_recomb_sign (sample_calc true false 0 1) 1 2 5);
    cbn [fUseModBoxRecomb fModBoxA fModBoxB sample_calc];
    first [reflexivity | lra].
Defined.

(** X9.  Modified-Box model without the LArQL correction: for a built
    calculator with a positive yield and B > 0, a deposit of positive
    energy and positive [ds] (the step length narrowed to [float]) in a
    positive field with 0 < A + Xi < 1 gets a result whose electron count
    is negative; nothing clamps it. *)
Theorem modbox_negative_electrons (detProp0 : DetectorPropertiesData)
    (params : LArG4Parameters) (sce : SpaceCharge) (larProp : LArProperties)
    (calc : ISCalcCorrelated) (detProp : DetectorPropertiesData)
    (edep : SimEnergyDeposit) :
  ISCalcCorrelated_new detProp0 params sce larProp = Some calc ->
  fUseModBoxRecomb calc = true ->
  fUseModLarqlRecomb calc = false ->
  0 < GeVToElectrons params ->
  0 < Energy edep ->
  0 < to_float (StepLength edep) ->
  0 < EFieldAtStep calc (Efield detProp) edep ->
  0 < fModBoxB calc ->
  0 < fModBoxA calc
      + fModBoxB calc * dEdxAtStep (Energy edep) (to_float (StepLength edep))
        / EFieldAtStep calc (Efield detProp) edep < 1 ->
  exists r : ISCalcData,
    CalcIonAndScint calc detProp edep = Some r /\ numElectrons r < 0.
Proof.
  intros Hnew Hbox Hoff Hg Hen Hds HE HB [Hlog Hlt].
  pose proof (dEdxAtStep_floor (Energy edep) (to_float (StepLength edep))) as Hfloor.
  assert (HBd : 0 < fModBoxB calc * dEdxAtStep (Energy edep) (to_float (StepLength edep)))
    by (apply Rmult_lt_0_compat; lra).
  set (Xi := fModBoxB calc * dEdxAtStep (Energy edep) (to_float (StepLength edep))
             / EFieldAtStep calc (Efield detProp) edep) in *.
  assert (HXi : 0 < / Xi).
  { apply Rinv_0_lt_compat. unfold Xi, Rdiv.
    apply Rmult_lt_0_compat; [exact HBd | apply Rinv_0_lt_compat; exact HE]. }
  assert (Hneg : ln (fModBoxA calc + Xi) / Xi < 0).
  { unfold Rdiv. rewrite <- (Rmult_0_l (/ Xi)).
    apply Rmult_lt_compat_r; [exact HXi |].
    apply ln_negative_iff; assumption. }
  eexists. split.
  - apply CalcIonAndScint_defined.
    + exact (new_Wph_nonzero _ _ _ _ _ Hnew).
    + exact (new_Wion_nonzero _ _ _ _ _ Hnew).
    + rewrite CorrectedRecomb_no_larql by exact Hoff.
      apply modbox_value; try assumption; lra.
  - cbn [numElectrons]. fold Xi.
    pose proof (new_Wion_value _ _ _ _ _ Hnew) as Hw.
    assert (Hion : 0 < fWion calc).
    { rewrite Hw. unfold Rdiv. apply Rmult_lt_0_compat;
        [lra | apply Rinv_0_lt_compat; exact Hg]. }
    assert (Hq : 0 < Energy edep / fWion calc).
    { unfold Rdiv. apply Rmult_lt_0_compat;
        [exact Hen | apply Rinv_0_lt_compat; exact Hion]. }
    rewrite <- (Rmult_0_r (Energy edep / fWion calc)).
    apply Rmult_lt_compat_l; assumption.
Qed.

Lemma modbox_negative_electrons_witness :
  exists r : ISCalcData,
    CalcIonAndScint (sample_calc true false 0 1) (sample_detProp 5)
      (deposit 2 1 11) = Some r /\
    numElectrons r < 0.
Proof.
  apply (modbox_negative_electrons (sample_detProp 5)
           (sample_params true false 0 1) no_sce sample_larProp
           (sample_calc true false 0 1) (sample_detProp 5) (deposit 2 1 11)
           (sample_calc_built true false 0 1 5) eq_refl eq_refl);
    unfold deposit, EFieldAtStep;
    cbn [Energy StepLength GeVToElectrons sample_params fModBoxA fModBoxB
         sample_calc fSCE EnableSimEfieldSCE no_sce negb Efield sample_detProp];
    rewrite ?to_float_1;
    try rewrite dEdxAtStep_above by lra;
    lra.
Defined.

(** ** The LArQL functions *)

Lemma EscapingEFraction_value (calc : ISCalcCorrelated) (dEdx : R) :
  fLarqlChi0B calc + exp (fLarqlChi0C calc + fLarqlChi0D calc * dEdx) <> 0 ->
  EscapingEFraction calc dEdx =
    Some (fLarqlChi0A calc
          / (fLarqlChi0B calc + exp (fLarqlChi0C calc + fLarqlChi0D calc * dEdx))).
Proof. intros H. unfold EscapingEFraction. apply div_defined. exact H. Qed.

Lemma exp_monotone (x y : R) : x <= y -> exp x <= exp y.
Proof.
  intros [Hlt | ->].
  - left. apply exp_increasing. exact Hlt.
  - apply Rle_refl.
Qed.

(** X10.  With chi0A, chi0B and chi0D non-negative, [EscapingEFraction] is
    defined at every dE/dx, is non-negative, and does not increase with
    dE/dx. *)
Theorem EscapingEFraction_nonneg_decreasing (calc : ISCalcCorrelated) (d1 d2 : R) :
  0 <= fLarqlChi0A calc ->
  0 <= fLarqlChi0B calc ->
  0 <= fLarqlChi0D calc ->
  d1 <= d2 ->
  exists e1 e2 : R,
    EscapingEFraction calc d1 = Some e1 /\
    EscapingEFraction calc d2 = Some e2 /\
    0 <= e2 <= e1.
Proof.
  intros HA HB HD Hd.
  set (x1 := fLarqlChi0C calc + fLarqlChi0D calc * d1).
  set (x2 := fLarqlChi0C calc + fLarqlChi0D calc * d2).
  pose proof (exp_pos x1) as P1. pose proof (exp_pos x2) as P2.
  assert (Hx : x1 <= x2).
  { unfold x1, x2. apply Rplus_le_compat_l.
    apply Rmult_le_compat_l; assumption. }
  pose proof (exp_monotone x1 x2 Hx) as Hexp.
  exists (fLarqlChi0A calc / (fLarqlChi0B calc + exp x1)),
         (fLarqlChi0A calc / (fLarqlChi0B calc + exp x2)).
  split; [apply EscapingEFraction_value; fold x1; lra |].
  split; [apply EscapingEFraction_value; fold x2; lra |].
  unfold Rdiv. split.
  - apply Rmult_le_pos; [exact HA |].
    left. apply Rinv_0_lt_compat. lra.
  - apply Rmult_le_compat_l; [exact HA |].
    apply Rinv_le_contravar; lra.
Qed.

Lemma EscapingEFraction_nonneg_decreasing_witness :
  exists e1 e2 : R,
    EscapingEFraction (sample_calc true true 0 1) 1 = Some e1 /\
    EscapingEFraction (sample_calc true true 0 1) 2 = Some e2 /\
    0 <= e2 <= e1.
Proof.
  apply (EscapingEFraction_nonneg_decreasing (sample_calc true true 0 1) 1 2);
    cbn [fLarqlChi0A fLarqlChi0B fLarqlChi0D sample_calc]; lra.
Defined.

(** X11.  With chi0B negative and chi0D non-zero, [EscapingEFraction]
    divides by zero at exactly one dE/dx,
    (ln(- chi0B) - chi0C) / chi0D. *)
Theorem EscapingEFraction_pole (calc : ISCalcCorrelated) (dEdx : R) :
  fLarqlChi0B calc < 0 ->
  fLarqlChi0D calc <> 0 ->
  (EscapingEFraction calc dEdx = None <->
   dEdx = (ln (- fLarqlChi0B calc) - fLarqlChi0C calc) / fLarqlChi0D calc).
Proof.
  intros HB HD.
  assert (Hpos : 0 < - fLarqlChi0B calc) by lra.
  split.
  - intros Hnone. unfold EscapingEFraction, div in Hnone.
    destruct (Req_dec_T
                (fLarqlChi0B calc
                 + exp (fLarqlChi0C calc + fLarqlChi0D calc * dEdx)) 0)
      as [Hz | _]; [| discriminate Hnone].
    assert (Hexp : exp (fLarqlChi0C calc + fLarqlChi0D calc * dEdx)
                   = - fLarqlChi0B calc) by lra.
    apply (f_equal ln) in Hexp. rewrite ln_exp in Hexp.
    rewrite <- Hexp. field. exact HD.
  - intros ->. unfold EscapingEFraction. apply div_by_zero.
    replace (fLarqlChi0C calc
             + fLarqlChi0D calc
               * ((ln (- fLarqlChi0B calc) - fLarqlChi0C calc) / fLarqlChi0D calc))
      with (ln (- fLarqlChi0B calc)) by (field; exact HD).
    rewrite (exp_ln _ Hpos). lra.
Qed.

Lemma EscapingEFraction_pole_witness :
  EscapingEFraction (sample_larql_calc 1 (-1) (-2) 1) 2 = None.
Proof.
  apply (proj2 (EscapingEFraction_pole (sample_larql_calc 1 (-1) (-2) 1) 2
                  ltac:(cbn [fLarqlChi0B sample_larql_calc]; lra)
                  ltac:(cbn [fLarqlChi0D sample_larql_calc]; lra))).
  cbn [fLarqlChi0B fLarqlChi0C fLarqlChi0D sample_larql_calc].
  replace (- -1) with 1 by lra. rewrite ln_1. lra.
Defined.

(** X12.  With alpha >= 0 and beta > 0, [FieldCorrection] is defined for
    every dE/dx >= 1; in a non-negative field it lies in (0, 1], and in a
    zero field it is 1. *)
Theorem FieldCorrection_range (calc : ISCalcCorrelated) (EF dEdx : R) :
  0 <= fLarqlAlpha calc ->
  0 < fLarqlBeta calc ->
  1 <= dEdx ->
  0 <= EF ->
  exists corr : R,
    FieldCorrection calc EF dEdx = Some corr /\
    0 < corr <= 1 /\
    (EF = 0 -> corr = 1).
Proof.
  intros Ha Hb Hd HEF.
  pose proof (ln_floor dEdx Hd) as Hln.
  set (den := fLarqlAlpha calc * ln dEdx + fLarqlBeta calc).
  assert (Hden : 0 < den).
  { unfold den. pose proof (Rmult_le_pos _ _ Ha Hln). lra. }
  exists (exp (- EF / den)).
  split.
  - rewrite FieldCorrection_log_defined by exact Hd. fold den.
    rewrite div_defined by lra. reflexivity.
  - assert (Hq : - EF / den <= 0).
    { unfold Rdiv. rewrite <- (Rmult_0_l (/ den)).
      apply Rmult_le_compat_r; [left; apply Rinv_0_lt_compat; exact Hden | lra]. }
    split; [split |].
    + apply exp_pos.
    + rewrite <- exp_0. apply exp_monotone. exact Hq.
    + intros ->. rewrite <- exp_0. f_equal. unfold Rdiv. rewrite Ropp_0.
      apply Rmult_0_l.
Qed.

Lemma FieldCorrection_range_witness :
  exists corr : R,
    FieldCorrection (sample_calc true true 0 1) 0.5 2 = Some corr /\
    0 < corr <= 1 /\
    (0.5 = 0 -> corr = 1).
Proof.
  apply (FieldCorrection_range (sample_calc true true 0 1) 0.5 2);
    cbn [fLarqlAlpha fLarqlBeta sample_calc]; lra.
Defined.

(** ** Switching the correction *)

(** X13.  Switching the LArQL correction on changes a result by the
    correction term alone: when the calculator with the correction on
    returns a result, the one with it off returns one too, with the same
    energy and yield ratio; the electron counts differ by
    energy / W_ion * (esc * corr) and the photon counts by the same
    amount times the pre-scale, with the opposite sign. *)
Theorem larql_toggle (calc : ISCalcCorrelated) (detProp : DetectorPropertiesData)
    (edep : SimEnergyDeposit) (r_on : ISCalcData) :
  CalcIonAndScint (with_UseModLarqlRecomb true calc) detProp edep = Some r_on ->
  exists (r_off : ISCalcData) (esc corr : R),
    CalcIonAndScint (with_UseModLarqlRecomb false calc) detProp edep = Some r_off /\
    EscapingEFraction calc (dEdxAtStep (Energy edep) (to_float (StepLength edep))) = Some esc /\
    FieldCorrection calc (EFieldAtStep calc (Efield detProp) edep)
      (dEdxAtStep (Energy edep) (to_float (StepLength edep))) = Some corr /\
    energy_deposit r_on = energy_deposit r_off /\
    scintillationYieldRatio r_on = scintillationYieldRatio r_off /\
    numElectrons r_on
      = numElectrons r_off + Energy edep / fWion calc * (esc * corr) /\
    numPhotons r_on
      = numPhotons r_off
        - Energy edep / fWion calc * (esc * corr) * fScintPreScale calc.
Proof.
  intros Hon.
  apply CalcIonAndScint_inv in Hon.
  destruct Hon as (recomb & Hr & Hph & Hion & ->).
  unfold CorrectedRecomb in Hr. cbn [fUseModLarqlRecomb with_UseModLarqlRecomb] in Hr.
  apply bind_inv in Hr. destruct Hr as (base & Hbase & Hr).
  apply bind_inv in Hr. destruct Hr as (esc & Hesc & Hr).
  apply bind_inv in Hr. destruct Hr as (corr & Hcorr & Hr).
  unfold ret in Hr. injection Hr as <-.
  eexists. exists esc, corr. split.
  - apply CalcIonAndScint_defined; [exact Hph | exact Hion |].
    rewrite CorrectedRecomb_no_larql by reflexivity. exact Hbase.
  - split; [exact Hesc |]. split; [exact Hcorr |].
    cbn [energy_deposit scintillationYieldRatio numElectrons numPhotons
         fWion fWph fScintPreScale with_UseModLarqlRecomb].
    repeat split; ring.
Qed.

(** The sample calculator with the Modified-Box model and the correction
    on, for 5 MeV over a step of length 0 in a field of 0.5. *)
Lemma larql_sample_run :
  CalcIonAndScint (with_UseModLarqlRecomb true (sample_calc true false 0 1))
    (sample_detProp 0.5) (deposit 5 0 11) =
  Some {| energy_deposit := 5;
          numElectrons := 5 / (1 / 1e9 * 1e3) * (0 + 1 / (1 + 1) * exp (- (0.5)));
          numPhotons :=
            (5 / (19.5 * 1e-6)
             - 5 / (1 / 1e9 * 1e3) * (0 + 1 / (1 + 1) * exp (- (0.5)))) * 0.03;
          scintillationYieldRatio := 0.27 |}.
Proof.
  unfold_calc.
  rewrite dEdxAtStep_no_step by lra.
  destruct (Rgt_dec 0 0) as [P | _]; [lra |].
  assert (E0 : exp (0 + 0 * 1) = 1) by (rewrite <- exp_0; f_equal; lra).
  rewrite E0. run_calc. rewrite ln_1. run_calc. unfold ret.
  replace (- (0.5) / (0 * 0 + 1)) with (- (0.5)) by lra.
  replace (1 / (1 * 1000000000) * (1 * 1000)) with (1 / 1e9 * 1e3) by lra.
  replace (19.5 * (1 / 1000000)) with (19.5 * 1e-6) by lra.
  reflexivity.
Qed.

Lemma larql_toggle_witness :
  exists (r_off : ISCalcData) (esc corr : R),
    CalcIonAndScint (with_UseModLarqlRecomb false (sample_calc true false 0 1))
      (sample_detProp 0.5) (deposit 5 0 11) = Some r_off /\
    5 / (1 / 1e9 * 1e3) * (0 + 1 / (1 + 1) * exp (- (0.5)))
      = numElectrons r_off + 5 / (1 / 1e9 * 1e3) * (esc * corr).
Proof.
  destruct (larql_toggle (sample_calc true false 0 1) (sample_detProp 0.5)
              (deposit 5 0 11) _ larql_sample_run)
    as (r_off & esc & corr & Hoff & _ & _ & _ & _ & Hel & _).
  exists r_off, esc, corr. split; [exact Hoff | exact Hel].
Defined.

(** X14.  With chi0A, chi0B, alpha non-negative, beta and W_ion positive,
    a non-negative pre-scale and a non-negative energy: whenever the
    calculator with the correction off returns a result, the one with the
    correction on returns one with at least as many electrons and at
    most as many photons. *)
Theorem larql_raises_electrons (calc : ISCalcCorrelated)
    (detProp : DetectorPropertiesData) (edep : SimEnergyDeposit)
    (r_off : ISCalcData) :
  0 <= fLarqlChi0A calc ->
  0 <= fLarqlChi0B calc ->
  0 <= fLarqlAlpha calc ->
  0 < fLarqlBeta calc ->
  0 < fWion calc ->
  0 <= fScintPreScale calc ->
  0 <= Energy edep ->
  CalcIonAndScint (with_UseModLarqlRecomb false calc) detProp edep = Some r_off ->
  exists r_on : ISCalcData,
    CalcIonAndScint (with_UseModLarqlRecomb true calc) detProp edep = Some r_on /\
    numElectrons r_off <= numElectrons r_on /\
    numPhotons r_on <= numPhotons r_off.
Proof.
  intros HA HB Ha Hb Hion Hpre Hen Hoff.
  apply CalcIonAndScint_inv in Hoff.
  destruct Hoff as (base & Hbase & Hph & _ & ->).
  rewrite CorrectedRecomb_no_larql in Hbase by reflexivity.
  change (ModelRecomb calc (to_float (StepLength edep))
            (dEdxAtStep (Energy edep) (to_float (StepLength edep)))
            (EFieldAtStep calc (Efield detProp) edep) = Some base) in Hbase.
  change (fWph calc <> 0) in Hph.
  pose proof (dEdxAtStep_floor (Energy edep) (to_float (StepLength edep))) as Hfloor.
  set (dEdx := dEdxAtStep (Energy edep) (to_float (StepLength edep))) in *.
  set (EFieldStep := EFieldAtStep calc (Efield detProp) edep) in *.
  set (x := fLarqlChi0C calc + fLarqlChi0D calc * dEdx).
  set (den := fLarqlAlpha calc * ln dEdx + fLarqlBeta calc).
  pose proof (exp_pos x) as Hx.
  assert (Hden : 0 < den).
  { unfold den. pose proof (Rmult_le_pos _ _ Ha (ln_floor dEdx Hfloor)). lra. }
  set (esc := fLarqlChi0A calc / (fLarqlChi0B calc + exp x)).
  set (corr := exp (- EFieldStep / den)).
  assert (Hterm : 0 <= esc * corr).
  { apply Rmult_le_pos.
    - unfold esc, Rdiv. apply Rmult_le_pos; [exact HA |].
      left. apply Rinv_0_lt_compat. lra.
    - left. apply exp_pos. }
  assert (Hon : CorrectedRecomb (with_UseModLarqlRecomb true calc)
                  (to_float (StepLength edep)) dEdx EFieldStep
                = Some (base + esc * corr)).
  { unfold CorrectedRecomb.
    change (ModelRecomb (with_UseModLarqlRecomb true calc)
              (to_float (StepLength edep)) dEdx EFieldStep)
      with (ModelRecomb calc (to_float (StepLength edep)) dEdx EFieldStep).
    rewrite Hbase. cbn [bind fUseModLarqlRecomb with_UseModLarqlRecomb].
    change (EscapingEFraction (with_UseModLarqlRecomb true calc) dEdx)
      with (EscapingEFraction calc dEdx).
    change (FieldCorrection (with_UseModLarqlRecomb true calc) EFieldStep dEdx)
      with (FieldCorrection calc EFieldStep dEdx).
    rewrite EscapingEFraction_value by (fold x; lra). fold x esc.
    rewrite FieldCorrection_log_defined by exact Hfloor. fold den.
    rewrite div_defined by lra. reflexivity. }
  eexists. split.
  - apply (CalcIonAndScint_defined (with_UseModLarqlRecomb true calc) detProp
             edep (base + esc * corr)).
    + exact Hph.
    + cbn [fWion with_UseModLarqlRecomb]. lra.
    + exact Hon.
  - cbn [numElectrons numPhotons fWion fWph fScintPreScale
         with_UseModLarqlRecomb].
    assert (Hq : 0 <= Energy edep / fWion calc).
    { unfold Rdiv. apply Rmult_le_pos; [exact Hen |].
      left. apply Rinv_0_lt_compat. exact Hion. }
    pose proof (Rmult_le_pos _ _ Hq Hterm) as Hextra.
    split; [lra |].
    apply Rmult_le_compat_r; [exact Hpre | lra].
Qed.

(** The Modified-Box sample calculator, correction off, for 5 MeV over a
    step of length 0 in a field of 0.5. *)
Lemma zero_step_sample_run :
  CalcIonAndScint (with_UseModLarqlRecomb false (sample_calc true false 0 1))
    (sample_detProp 0.5) (deposit 5 0 11) =
  Some {| energy_deposit := 5;
          numElectrons := 5 / (1 / 1e9 * 1e3) * 0;
          numPhotons :=
            (5 / (19.5 * 1e-6) - 5 / (1 / 1e9 * 1e3) * 0) * 0.03;
          scintillationYieldRatio := 0.27 |}.
Proof.
  unfold_calc.
  rewrite dEdxAtStep_no_step by lra.
  destruct (Rgt_dec 0 0) as [P | _]; [lra |].
  run_calc. unfold ret.
  replace (1 / (1 * 1000000000) * (1 * 1000)) with (1 / 1e9 * 1e3) by lra.
  replace (19.5 * (1 / 1000000)) with (19.5 * 1e-6) by lra.
  reflexivity.
Qed.

Lemma larql_raises_electrons_witness :
  exists r_on : ISCalcData,
    CalcIonAndScint (with_UseModLarqlRecomb true (sample_calc true false 0 1))
      (sample_detProp 0.5) (deposit 5 0 11) = Some r_on /\
    5 / (1 / 1e9 * 1e3) * 0 <= numElectrons r_on /\
    numPhotons r_on <= (5 / (19.5 * 1e-6) - 5 / (1 / 1e9 * 1e3) * 0) * 0.03.
Proof.
  refine (larql_raises_electrons (sample_calc true false 0 1)
            (sample_detProp 0.5) (deposit 5 0 11) _ _ _ _ _ _ _ _
            zero_step_sample_run);
    unfold deposit;
    cbn [fLarqlChi0A fLarqlChi0B fLarqlAlpha fLarqlBeta fWion fScintPreScale
         sample_calc Energy];
    lra.
Defined.

(** ** The effective field *)

Lemma hypot_nonneg (x y z : R) : 0 <= hypot x y z.
Proof. unfold hypot. apply sqrt_pos. Qed.

Lemma hypot_sqr (x y z : R) :
  hypot x y z * hypot x y z = x * x + y * y + z * z.
Proof. unfold hypot. apply sqrt_sqrt. nra. Qed.

Lemma hypot_zero_iff (x y z : R) :
  hypot x y z = 0 <-> x = 0 /\ y = 0 /\ z = 0.
Proof.
  split.
  - intros H. pose proof (hypot_sqr x y z) as Hs. rewrite H in Hs.
    repeat split; nra.
  - intros (-> & -> & ->). unfold hypot.
    replace (0 * 0 + 0 * 0 + 0 * 0) with 0 by ring. apply sqrt_0.
Qed.

Lemma hypot_shift (a b c : R) :
  Rabs (hypot (1 + a) b c - 1) <= hypot a b c.
Proof.
  pose proof (hypot_nonneg (1 + a) b c) as Hh.
  pose proof (hypot_nonneg a b c) as Hn.
  pose proof (hypot_sqr (1 + a) b c) as Sh.
  pose proof (hypot_sqr a b c) as Sn.
  set (h := hypot (1 + a) b c) in *. set (n := hypot a b c) in *.
  assert (Ha : - n <= a <= n).
  { split.
    - destruct (Rle_dec (- n) a) as [L | G]; [exact L | exfalso; nra].
    - destruct (Rle_dec a n) as [L | G]; [exact L | exfalso; nra]. }
  apply Rabs_le. split.
  - destruct (Rle_dec (- n) (h - 1)) as [L | G]; [exact L | exfalso; nra].
  - destruct (Rle_dec (h - 1) n) as [L | G]; [exact L | exfalso; nra].
Qed.

(** X15.  The effective field is 0 exactly when the ambient field is 0,
    or the distortion is on and the offsets at the midpoint are
    (-1, 0, 0). *)
Theorem EFieldAtStep_zero_iff (calc : ISCalcCorrelated) (efield : R)
    (edep : SimEnergyDeposit) :
  EFieldAtStep calc efield edep = 0 <->
  efield = 0 \/
  (EnableSimEfieldSCE (fSCE calc) = true /\
   GetEfieldOffsets (fSCE calc) (MidPoint edep) = geo.mkVector (-1) 0 0).
Proof.
  unfold EFieldAtStep.
  destruct (EnableSimEfieldSCE (fSCE calc)); cbn [negb].
  - destruct (GetEfieldOffsets (fSCE calc) (MidPoint edep)) as [dx dy dz].
    cbn [geo.X geo.Y geo.Z]. split.
    + intros H. apply Rmult_integral in H. destruct H as [H | H].
      * left. exact H.
      * right. split; [reflexivity |].
        apply hypot_zero_iff in H. destruct H as (Hx & -> & ->).
        f_equal. lra.
    + intros [-> | [_ H]].
      * apply Rmult_0_l.
      * injection H as -> -> ->.
        replace (1 + -1) with 0 by ring.
        rewrite (proj2 (hypot_zero_iff 0 0 0)) by (repeat split; reflexivity).
        apply Rmult_0_r.
  - split.
    + intros H. left. exact H.
    + intros [H | [H _]]; [exact H | discriminate H].
Qed.

(** X16.  The effective field differs from the ambient field by at most
    the magnitude of the ambient field times the Euclidean norm of the
    offsets at the midpoint. *)
Theorem EFieldAtStep_distortion_bound (calc : ISCalcCorrelated) (efield : R)
    (edep : SimEnergyDeposit) :
  let off := GetEfieldOffsets (fSCE calc) (MidPoint edep) in
  Rabs (EFieldAtStep calc efield edep - efield)
  <= Rabs efield * hypot (geo.X off) (geo.Y off) (geo.Z off).
Proof.
  intros off. unfold EFieldAtStep.
  destruct (EnableSimEfieldSCE (fSCE calc)); cbn [negb].
  - fold off.
    replace (efield * hypot (1 + geo.X off) (geo.Y off) (geo.Z off) - efield)
      with (efield * (hypot (1 + geo.X off) (geo.Y off) (geo.Z off) - 1))
      by ring.
    rewrite Rabs_mult.
    apply Rmult_le_compat_l; [apply Rabs_pos | apply hypot_shift].
  - replace (efield - efield) with 0 by ring. rewrite Rabs_R0.
    apply Rmult_le_pos; [apply Rabs_pos | apply hypot_nonneg].
Qed.

(** X17.  Modified-Box model, positive [ds]: when the ambient field is 0,
    or the distortion is on with offsets (-1, 0, 0) whatever the ambient
    field, the effective field is 0 and Xi = B * dEdx / E is a division
    by zero, so that the survival fraction and the two counts are not
    real numbers (in the code they are NaN). *)
Theorem modbox_zero_field (calc : ISCalcCorrelated)
    (detProp : DetectorPropertiesData) (edep : SimEnergyDeposit) :
  fUseModBoxRecomb calc = true ->
  0 < to_float (StepLength edep) ->
  Efield detProp = 0 \/
  (EnableSimEfieldSCE (fSCE calc) = true /\
   GetEfieldOffsets (fSCE calc) (MidPoint edep) = geo.mkVector (-1) 0 0) ->
  EFieldAtStep calc (Efield detProp) edep = 0 /\
  fModBoxB calc * dEdxAtStep (Energy edep) (to_float (StepLength edep))
    /? EFieldAtStep calc (Efield detProp) edep = None /\
  ModelRecomb calc (to_float (StepLength edep))
    (dEdxAtStep (Energy edep) (to_float (StepLength edep)))
    (EFieldAtStep calc (Efield detProp) edep) = None /\
  CalcIonAndScint calc detProp edep = None.
Proof.
  intros Hbox Hds Hzero.
  assert (HE : EFieldAtStep calc (Efield detProp) edep = 0).
  { unfold EFieldAtStep. destruct Hzero as [H0 | [Hon Hoff]].
    - rewrite H0. destruct (negb (EnableSimEfieldSCE (fSCE calc)));
        [reflexivity | apply Rmult_0_l].
    - rewrite Hon, Hoff. cbn [negb geo.X geo.Y geo.Z].
      replace (1 + -1) with 0 by ring.
      rewrite (proj2 (hypot_zero_iff 0 0 0)) by (repeat split; reflexivity).
      apply Rmult_0_r. }
  assert (Hdiv : fModBoxB calc
                 * dEdxAtStep (Energy edep) (to_float (StepLength edep))
                 /? EFieldAtStep calc (Efield detProp) edep = None)
    by (apply div_by_zero; exact HE).
  assert (Hmodel : ModelRecomb calc (to_float (StepLength edep))
                     (dEdxAtStep (Energy edep) (to_float (StepLength edep)))
                     (EFieldAtStep calc (Efield detProp) edep) = None).
  { unfold ModelRecomb. rewrite Hbox.
    destruct (Rgt_dec (to_float (StepLength edep)) 0) as [_ | N];
      [| exfalso; apply N; exact Hds].
    rewrite Hdiv. reflexivity. }
  repeat split; try assumption.
  apply CalcIonAndScint_undefined, CorrectedRecomb_undefined. exact Hmodel.
Qed.

Lemma modbox_zero_field_witness :
  CalcIonAndScint (with_SCE (uniform_sce (-1) 0 0) (sample_calc true false 0 1))
    (sample_detProp 0.5) (deposit 2 1 11) = None.
Proof.
  refine (proj2 (proj2 (proj2
            (modbox_zero_field
               (with_SCE (uniform_sce (-1) 0 0) (sample_calc true false 0 1))
               (sample_detProp 0.5) (deposit 2 1 11) eq_refl _ _)))).
  - unfold deposit. cbn [StepLength]. rewrite to_float_1. lra.
  - right. split; reflexivity.
Defined.

(** X18.  With the field distortion off, the result depends on the
    detector properties through the ambient field only and on the
    deposit through its energy, step length and particle code only: the
    midpoint is not read. *)
Theorem position_independent_without_sce (calc : ISCalcCorrelated)
    (d1 d2 : DetectorPropertiesData) (e1 e2 : SimEnergyDeposit) :
  EnableSimEfieldSCE (fSCE calc) = false ->
  Efield d1 = Efield d2 ->
  Energy e1 = Energy e2 ->
  StepLength e1 = StepLength e2 ->
  PdgCode e1 = PdgCode e2 ->
  CalcIonAndScint calc d1 e1 = CalcIonAndScint calc d2 e2.
Proof.
  intros Hoff Hf He Hs Hp.
  unfold CalcIonAndScint, EFieldAtStep, GetScintYieldRatio.
  rewrite Hoff, Hf, He, Hs, Hp. reflexivity.
Qed.

Lemma position_independent_without_sce_witness :
  CalcIonAndScint (sample_calc true false 0 1) (sample_detProp 0.5)
    (deposit 2 1 11) =
  CalcIonAndScint (sample_calc true false 0 1)
    (mkDetectorPropertiesData 90 (fun _ => 1.3) 0.5)
    (mkSimEnergyDeposit 2 1 (geo.mkVector 10 20 30) 11).
Proof.
  apply (position_independent_without_sce (sample_calc true false 0 1));
    reflexivity.
Defined.

(** ** Steps of the same dE/dx *)






(** ** The yield ratio *)

Lemma heavy_code_cases (code : Z) :
  heavy_code code = true ->
  code = 2212%Z \/ code = 13%Z \/ code = (-13)%Z \/ code = 211%Z \/
  code = (-211)%Z \/ code = 321%Z \/ code = (-321)%Z \/ code = 1000020040%Z.
Proof.
  unfold heavy_code. intros H.
  repeat (apply orb_true_iff in H; destruct H as [H | H]);
    apply Z.eqb_eq in H; tauto.
Qed.

(** X20.  The ratio [GetScintYieldRatio] returns is always one of the
    seven configured ratios: a property all seven have (lying in [0, 1],
    say) is a property of the result, for every particle code. *)
Theorem GetScintYieldRatio_configured (calc : ISCalcCorrelated)
    (edep : SimEnergyDeposit) (P : R -> Prop) :
  P (ScintYieldRatio (fLArProp calc)) ->
  P (ProtonScintYieldRatio (fLArProp calc)) ->
  P (MuonScintYieldRatio (fLArProp calc)) ->
  P (PionScintYieldRatio (fLArProp calc)) ->
  P (KaonScintYieldRatio (fLArProp calc)) ->
  P (AlphaScintYieldRatio (fLArProp calc)) ->
  P (ElectronScintYieldRatio (fLArProp calc)) ->
  P (GetScintYieldRatio calc edep).
Proof.
  intros Hg Hp Hm Hpi Hk Ha He.
  destruct (ScintByParticleType (fLArProp calc)) eqn:Hon.
  - destruct (heavy_code (PdgCode edep)) eqn:Hh.
    + apply heavy_code_cases in Hh.
      unfold GetScintYieldRatio. rewrite Hon. cbn [negb].
      destruct Hh as [H | [H | [H | [H | [H | [H | [H | H]]]]]]];
        rewrite H; assumption.
    + rewrite (GetScintYieldRatio_default calc edep Hon Hh). exact He.
  - unfold GetScintYieldRatio. rewrite Hon. exact Hg.
Qed.

Lemma GetScintYieldRatio_configured_witness :
  0 <= GetScintYieldRatio (sample_calc true false 0 1) (deposit 2 1 321) <= 1.
Proof.
  apply (GetScintYieldRatio_configured (sample_calc true false 0 1)
           (deposit 2 1 321) (fun x => 0 <= x <= 1));
    cbn [fLArProp sample_calc sample_larProp ScintYieldRatio
         ProtonScintYieldRatio MuonScintYieldRatio PionScintYieldRatio
         KaonScintYieldRatio AlphaScintYieldRatio ElectronScintYieldRatio];
    lra.
Defined.

Lemma heavy_code_opp (code : Z) :
  code <> 2212%Z -> code <> (-2212)%Z ->
  code <> 1000020040%Z -> code <> (-1000020040)%Z ->
  heavy_code (- code) = heavy_code code.
Proof.
  intros H1 H2 H3 H4. unfold heavy_code.
  apply Z.eqb_neq in H1, H3.
  assert (H2' : (- code =? 2212)%Z = false) by (apply Z.eqb_neq; lia).
  assert (H4' : (- code =? 1000020040)%Z = false) by (apply Z.eqb_neq; lia).
  rewrite H1, H3, H2', H4'. cbn [orb]. rewrite !orb_false_r.
  replace (- code =? 13)%Z with (code =? -13)%Z
    by (apply eq_true_iff_eq; rewrite !Z.eqb_eq; lia).
  replace (- code =? -13)%Z with (code =? 13)%Z
    by (apply eq_true_iff_eq; rewrite !Z.eqb_eq; lia).
  replace (- code =? 211)%Z with (code =? -211)%Z
    by (apply eq_true_iff_eq; rewrite !Z.eqb_eq; lia).
  replace (- code =? -211)%Z with (code =? 211)%Z
    by (apply eq_true_iff_eq; rewrite !Z.eqb_eq; lia).
  replace (- code =? 321)%Z with (code =? -321)%Z
    by (apply eq_true_iff_eq; rewrite !Z.eqb_eq; lia).
  replace (- code =? -321)%Z with (code =? 321)%Z
    by (apply eq_true_iff_eq; rewrite !Z.eqb_eq; lia).
  destruct (code =? 13)%Z, (code =? -13)%Z, (code =? 211)%Z, (code =? -211)%Z,
    (code =? 321)%Z, (code =? -321)%Z; reflexivity.
Qed.

(** X21.  A particle code and its negative get the same ratio, unless the
    code is 2212 or 1000020040 or the negative of one of them (the switch
    names those two with one sign only). *)
Theorem GetScintYieldRatio_charge_conjugation (calc : ISCalcCorrelated)
    (edep : SimEnergyDeposit) :
  PdgCode edep <> 2212%Z ->
  PdgCode edep <> (-2212)%Z ->
  PdgCode edep <> 1000020040%Z ->
  PdgCode edep <> (-1000020040)%Z ->
  GetScintYieldRatio calc (with_PdgCode (- PdgCode edep) edep)
  = GetScintYieldRatio calc edep.
Proof.
  intros H1 H2 H3 H4.
  destruct (ScintByParticleType (fLArProp calc)) eqn:Hon.
  - pose proof (heavy_code_opp _ H1 H2 H3 H4) as Hopp.
    destruct (heavy_code (PdgCode edep)) eqn:Hh.
    + apply heavy_code_cases in Hh.
      unfold GetScintYieldRatio. rewrite Hon. cbn [negb PdgCode with_PdgCode].
      destruct Hh as [H | [H | [H | [H | [H | [H | [H | H]]]]]]];
        try contradiction; rewrite H; reflexivity.
    + rewrite (GetScintYieldRatio_default calc edep Hon Hh).
      apply GetScintYieldRatio_default; [exact Hon |].
      cbn [PdgCode with_PdgCode]. exact Hopp.
  - unfold GetScintYieldRatio. rewrite Hon. reflexivity.
Qed.

Lemma GetScintYieldRatio_charge_conjugation_witness :
  GetScintYieldRatio (sample_calc true false 0 1)
    (with_PdgCode (- PdgCode (deposit 2 1 211)) (deposit 2 1 211))
  = GetScintYieldRatio (sample_calc true false 0 1) (deposit 2 1 211).
Proof.
  apply (GetScintYieldRatio_charge_conjugation (sample_calc true false 0 1)
           (deposit 2 1 211));
    discriminate.
Defined.
